(** * A shallow embedding of the particle filter of [particle_filter.cpp]

    The C++ [double]s of the filter are modelled as real numbers ([R]):
    rounding, overflow, infinities and NaN are outside this model.  The
    [int]s are modelled as [Z]; every [int] the filter computes stays far
    below 2^31, so no wrap-around is written out.  A [std::vector] is a
    [list], read with stdpp's lookup [!!] and updated with [<[i:=v]>]; an
    index outside the vector is undefined behaviour in C++ and is reported
    here as the outcome [Fault]. *)

From Stdlib Require Import Reals Lra Lia ZArith Ascii.
From stdpp Require Import base option list strings pretty.

Open Scope R_scope.

(** ** Outcomes of a call

    [Done a]: the call returns [a].  [Fault]: the call runs into undefined
    behaviour (an out-of-range [operator[]], a remainder by zero).
    [OutOfFuel]: a [while] loop was cut off by the fuel of the model; only
    [resample] has such a loop. *)

Inductive outcome (A : Type) : Type :=
  | Done (a : A)
  | Fault
  | OutOfFuel.
Arguments Done {A} a.
Arguments Fault {A}.
Arguments OutOfFuel {A}.

#[global] Instance outcome_ret : MRet outcome := fun A a => Done a.

#[global] Instance outcome_bind : MBind outcome := fun A B k m =>
  match m with
  | Done a => k a
  | Fault => Fault
  | OutOfFuel => OutOfFuel
  end.

#[global] Instance outcome_fmap : FMap outcome := fun A B f m =>
  match m with
  | Done a => Done (f a)
  | Fault => Fault
  | OutOfFuel => OutOfFuel
  end.

(** [v[i]] on a [std::vector] with an [int] index. *)
Definition at_index {A : Type} (v : list A) (i : Z) : outcome A :=
  if (i <? 0)%Z then Fault
  else match v !! Z.to_nat i with
       | Some a => Done a
       | None => Fault
       end.

(** ** Data model *)

(** [struct LandmarkObs { int id; double x; double y; }] *)
Record LandmarkObs : Type := mkLandmarkObs {
  obs_id : Z;
  obs_x : R;
  obs_y : R
}.

(** [struct Map::single_landmark_s { int id_i; float x_f; float y_f; }] *)
Record single_landmark_s : Type := mkLandmark {
  id_i : Z;
  x_f : R;
  y_f : R
}.

(** [class Map { std::vector<single_landmark_s> landmark_list; }] *)
Record Map : Type := mkMap {
  landmark_list : list single_landmark_s
}.

(** [struct Particle], in the field order of the aggregate
    [Particle{i, x, y, theta, 1}] of [init]. *)
Record Particle : Type := mkParticle {
  p_id : Z;
  p_x : R;
  p_y : R;
  p_theta : R;
  p_weight : R;
  p_associations : list Z;
  p_sense_x : list R;
  p_sense_y : list R
}.

(** The members of [class ParticleFilter] that the methods read or write. *)
Record ParticleFilter : Type := mkFilter {
  num_particles : Z;
  is_initialized : bool;
  max_weight : R;
  particles : list Particle
}.

Definition set_particles (pf : ParticleFilter) (ps : list Particle) : ParticleFilter :=
  {| num_particles := num_particles pf;
     is_initialized := is_initialized pf;
     max_weight := max_weight pf;
     particles := ps |}.

Definition set_max_weight (pf : ParticleFilter) (m : R) : ParticleFilter :=
  {| num_particles := num_particles pf;
     is_initialized := is_initialized pf;
     max_weight := m;
     particles := particles pf |}.

Definition set_pose (p : Particle) (x y theta : R) : Particle :=
  {| p_id := p_id p;
     p_x := x;
     p_y := y;
     p_theta := theta;
     p_weight := p_weight p;
     p_associations := p_associations p;
     p_sense_x := p_sense_x p;
     p_sense_y := p_sense_y p |}.

Definition set_weight (p : Particle) (w : R) : Particle :=
  {| p_id := p_id p;
     p_x := p_x p;
     p_y := p_y p;
     p_theta := p_theta p;
     p_weight := w;
     p_associations := p_associations p;
     p_sense_x := p_sense_x p;
     p_sense_y := p_sense_y p |}.

(** ** Conversions between [double] and [int] *)

(** The implicit conversion of a [double] to [int]: the fractional part is
    discarded (truncation toward zero). *)
Definition double_to_int (r : R) : Z :=
  if Rle_dec 0 r then Int_part r else (- Int_part (- r))%Z.

(** ** Data association (particle_filter.cpp, lines 102-130) *)

Definition euclidean_dist (observation : LandmarkObs) (lm : single_landmark_s) : R :=
  sqrt ((obs_x observation - x_f lm) ^ 2 + (obs_y observation - y_f lm) ^ 2).

(** The [for] loop of [dataAssociation] from landmark index [i] on, over the
    landmarks [lms] not yet visited.  [min_dist] is an [int]: the
    comparison converts it to [double], the assignment truncates the
    distance. *)
Fixpoint dataAssociation_loop (observation : LandmarkObs)
    (lms : list single_landmark_s) (i : Z)
    (closest_landmark_id min_dist : Z) : Z :=
  match lms with
  | [] => closest_landmark_id
  | lm :: rest =>
      let curr_dist := euclidean_dist observation lm in
      if Rlt_dec curr_dist (IZR min_dist)
      then dataAssociation_loop observation rest (i + 1)%Z i (double_to_int curr_dist)
      else dataAssociation_loop observation rest (i + 1)%Z closest_landmark_id min_dist
  end.

Definition dataAssociation (observation : LandmarkObs) (map_landmarks : Map) : Z :=
  dataAssociation_loop observation (landmark_list map_landmarks) 0%Z 0%Z 999999%Z.

(** ** The pseudorandom source

    [std::default_random_engine] and the three distributions the filter
    draws from, as an interface.  The engine is a state that each draw
    advances.  [default_seeded] is the state of a default-constructed
    engine ([std::default_random_engine gen;]): it is seeded with the
    constant [default_seed], so it is one fixed state.

    - [generate_canonical] is the uniform draw in [[0, 1)] that
      [std::uniform_real_distribution] scales to [[a, b)];
    - [standard_normal] is the draw of mean 0 and deviation 1 that a
      freshly constructed [std::normal_distribution] scales by its
      deviation and shifts by its mean;
    - [discrete_sample w] is [std::discrete_distribution] over the weight
      vector [w]: it yields an index below the number of weights, and 0 when
      there is no weight (the distribution then has the single outcome 0). *)

Class RandomSource : Type := {
  engine : Type;
  default_seeded : engine;
  generate_canonical : engine -> R * engine;
  generate_canonical_range : forall g, 0 <= (generate_canonical g).1 < 1;
  standard_normal : engine -> R * engine;
  discrete_sample : list R -> engine -> Z * engine;
  discrete_sample_range : forall w g,
    (0 <= (discrete_sample w g).1 < Z.of_nat (Nat.max 1 (length w)))%Z
}.

Section Distributions.
Context {RS : RandomSource}.

(** [std::uniform_real_distribution<>(a, b)(gen)] *)
Definition uniform_real_distribution (a b : R) (gen : engine) : R * engine :=
  let '(u, gen') := generate_canonical gen in (u * (b - a) + a, gen').

(** [std::normal_distribution<double>(mean, stddev)(gen)], first draw of
    a freshly constructed distribution object. *)
Definition normal_distribution (mean stddev : R) (gen : engine) : R * engine :=
  let '(z, gen') := standard_normal gen in (z * stddev + mean, gen').

(** [std::vector<double>(n, v)]: [n] copies of [v]. *)
Definition vector_fill (n : Z) (v : R) : list R := replicate (Z.to_nat n) v.

(** [std::discrete_distribution<>(first, last)] with two [int] arguments.
    The only constructor taking two arguments is the iterator-pair
    template, here instantiated at [int]; it hands both to the weight
    vector, [std::vector<double>(first, last)], and the vector, whose own
    iterator-pair constructor does not apply to integers, reads them as
    (count, value). *)
Definition discrete_distribution (first last : Z) (gen : engine) : Z * engine :=
  discrete_sample (vector_fill first (IZR last)) gen.
End Distributions.

(** ** Helpers of [helper_functions.h] *)

(** Modelled from the spec: [transform_obs] of [helper_functions.h], the
    vehicle-frame to map-frame transform: rotation by the particle's
    heading, then translation by the particle's position. *)
Definition transform_obs (x_part y_part theta : R) (observation : LandmarkObs) : LandmarkObs :=
  {| obs_id := obs_id observation;
     obs_x := x_part + cos theta * obs_x observation - sin theta * obs_y observation;
     obs_y := y_part + sin theta * obs_x observation + cos theta * obs_y observation |}.

(** Modelled from the spec: [normPdf2d] of [helper_functions.h], the
    bivariate Gaussian density with independent axes (no correlation
    term), evaluated at [(x, y)], centred at [(mu_x, mu_y)]. *)
Definition normPdf2d (x y mu_x mu_y sig_x sig_y : R) : R :=
  1 / (2 * PI * sig_x * sig_y)
  * exp (- ((x - mu_x) ^ 2 / (2 * sig_x ^ 2) + (y - mu_y) ^ 2 / (2 * sig_y ^ 2))).

(** ** Prediction (particle_filter.cpp, lines 62-100) *)

(** Lines 81-88: the pose predicted by the motion model, before noise. *)
Definition motion_model (delta_t velocity yaw_rate : R) (x y theta : R) : R * R * R :=
  if Req_dec_T yaw_rate 0
  then (x + velocity * cos theta * delta_t,
        y + velocity * sin theta * delta_t,
        theta)
  else (x + velocity * (sin (theta + yaw_rate * delta_t) - sin theta) / yaw_rate,
        y + velocity * (- cos (theta + yaw_rate * delta_t) + cos theta) / yaw_rate,
        theta + yaw_rate * delta_t).

Section Filter.
Context {RS : RandomSource}.

(** The body of the [for] loop for particle [i]; [std_pos] is the array
    of the three deviations. *)
Definition prediction_step (delta_t : R) (std_pos : R * R * R)
    (velocity yaw_rate : R) (ps : list Particle) (gen : engine) (i : Z)
    : outcome (list Particle * engine) :=
  p ← at_index ps i;
  let '(x, y, theta) :=
    motion_model delta_t velocity yaw_rate (p_x p) (p_y p) (p_theta p) in
  let '(nx, gen1) := normal_distribution x std_pos.1.1 gen in
  let '(ny, gen2) := normal_distribution y std_pos.1.2 gen1 in
  let '(ntheta, gen3) := normal_distribution theta std_pos.2 gen2 in
  Done (<[Z.to_nat i := set_pose p nx ny ntheta]> ps, gen3).

(** [n] further iterations of the loop, the next one for particle [i]. *)
Fixpoint prediction_loop (delta_t : R) (std_pos : R * R * R)
    (velocity yaw_rate : R) (n : nat) (i : Z)
    (ps : list Particle) (gen : engine) : outcome (list Particle * engine) :=
  match n with
  | O => Done (ps, gen)
  | S n' =>
      st ← prediction_step delta_t std_pos velocity yaw_rate ps gen i;
      prediction_loop delta_t std_pos velocity yaw_rate n' (i + 1)%Z st.1 st.2
  end.

Definition prediction (delta_t : R) (std_pos : R * R * R)
    (velocity yaw_rate : R) (pf : ParticleFilter) : outcome ParticleFilter :=
  st ← prediction_loop delta_t std_pos velocity yaw_rate
         (Z.to_nat (num_particles pf)) 0%Z (particles pf) default_seeded;
  Done (set_particles pf st.1).

(** ** Weight update (particle_filter.cpp, lines 132-182) *)

(** The body of the loop over the observations: the running weight [w]
    of [particle] multiplied by the density of one observation. *)
Definition weight_step (std_landmark : R * R) (map_landmarks : Map)
    (particle : Particle) (w : R) (observation : LandmarkObs) : outcome R :=
  let transformed_obs :=
    transform_obs (p_x particle) (p_y particle) (p_theta particle) observation in
  let id := dataAssociation transformed_obs map_landmarks in
  lm ← at_index (landmark_list map_landmarks) id;
  let weight_part :=
    normPdf2d (obs_x transformed_obs) (obs_y transformed_obs)
              (x_f lm) (y_f lm) std_landmark.1 std_landmark.2 in
  Done (w * weight_part).

Fixpoint observations_loop (std_landmark : R * R) (map_landmarks : Map)
    (particle : Particle) (w : R) (observations : list LandmarkObs) : outcome R :=
  match observations with
  | [] => Done w
  | observation :: rest =>
      w' ← weight_step std_landmark map_landmarks particle w observation;
      observations_loop std_landmark map_landmarks particle w' rest
  end.

(** The loop over the particles, threading the running maximum. *)
Fixpoint particles_loop (std_landmark : R * R)
    (observations : list LandmarkObs) (map_landmarks : Map)
    (ps : list Particle) (max_w : R) : outcome (list Particle * R) :=
  match ps with
  | [] => Done ([], max_w)
  | particle :: rest =>
      w ← observations_loop std_landmark map_landmarks particle 1 observations;
      let max_w' := if Rgt_dec w max_w then w else max_w in
      st ← particles_loop std_landmark observations map_landmarks rest max_w';
      Done (set_weight particle w :: st.1, st.2)
  end.

Definition updateWeights (sensor_range : R) (std_landmark : R * R)
    (observations : list LandmarkObs) (map_landmarks : Map)
    (pf : ParticleFilter) : outcome ParticleFilter :=
  st ← particles_loop std_landmark observations map_landmarks (particles pf) 0;
  Done (set_max_weight (set_particles pf st.1) st.2).

(** ** Resampling (particle_filter.cpp, lines 184-213) *)

(** The [while] loop of the wheel; [fuel] bounds the number of times its
    condition is evaluated. *)
Fixpoint wheel (fuel : nat) (ps : list Particle) (N : Z) (b : R) (index : Z)
    : outcome (R * Z) :=
  match fuel with
  | O => OutOfFuel
  | S fuel' =>
      p ← at_index ps index;
      if Rgt_dec b (p_weight p)
      then if (N =? 0)%Z then Fault
           else wheel fuel' ps N (b - p_weight p) (Z.rem (index + 1) N)
      else Done (b, index)
  end.

(** [n] further iterations of the [for] loop. *)
Fixpoint resample_loop (fuel : nat) (ps : list Particle) (N : Z) (max_w : R)
    (n : nat) (b : R) (index : Z) (gen : engine)
    (resampled_particles : list Particle) : outcome (list Particle) :=
  match n with
  | O => Done resampled_particles
  | S n' =>
      let '(beta, gen') := uniform_real_distribution 0 max_w gen in
      st ← wheel fuel ps N (b + beta) index;
      p ← at_index ps st.2;
      resample_loop fuel ps N max_w n' st.1 st.2 gen' (resampled_particles ++ [p])
  end.

Definition resample (fuel : nat) (pf : ParticleFilter) : outcome ParticleFilter :=
  let gen := default_seeded in
  let '(index, gen') := discrete_distribution 0 (num_particles pf) gen in
  resampled_particles ←
    resample_loop fuel (particles pf) (num_particles pf) (max_weight pf)
      (Z.to_nat (num_particles pf)) 0 index gen' [];
  Done (set_particles pf resampled_particles).
End Filter.

(** ** A concrete random source

    A small deterministic instance on which the model can be run: a linear
    congruential engine started at 1.  The theorems below hold for every
    [RandomSource]; this instance serves the worked examples. *)

Definition lcg_next (g : Z) : Z := ((16807 * g) mod 2147483647)%Z.

#[global] Instance lcg_source : RandomSource.
Proof.
  refine {| engine := Z;
            default_seeded := 1%Z;
            generate_canonical := fun g => (IZR (lcg_next g) / 2147483647, lcg_next g);
            standard_normal := fun g => (IZR (lcg_next g) / 2147483647 - 1 / 2, lcg_next g);
            discrete_sample := fun w g =>
              ((lcg_next g) mod Z.of_nat (Nat.max 1 (length w)), lcg_next g)%Z |}.
  - intros g; cbn.
    assert (H : (0 <= lcg_next g < 2147483647)%Z)
      by (unfold lcg_next; apply Z.mod_pos_bound; lia).
    destruct H as [H0 H1]. apply IZR_le in H0. apply IZR_lt in H1. split.
    + apply Rmult_le_pos; [exact H0 | lra].
    + apply (Rmult_lt_reg_r 2147483647); [lra |]. field_simplify. lra.
  - intros w g; cbn. apply Z.mod_pos_bound. lia.
Defined.

(** ** Example data *)

Definition obs_origin : LandmarkObs := mkLandmarkObs 0 0 0.
Definition lm_half : single_landmark_s := mkLandmark 1 (1 / 2) 0.
Definition lm_origin : single_landmark_s := mkLandmark 2 0 0.

(** ** The noise a call draws

    [engine_after k gen] is the engine after [k] standard-normal draws from
    [gen], [normal_draw k gen] is the draw number [k] (from 0), and
    [noisy_particle ... p k gen] is particle [p] moved by the motion model
    and perturbed, per axis, by the draws [k], [k+1] and [k+2]. *)

Section Noise.
Context {RS : RandomSource}.

Definition engine_after (k : nat) (gen : engine) : engine :=
  Nat.iter k (fun g => (standard_normal g).2) gen.

Definition normal_draw (k : nat) (gen : engine) : R :=
  (standard_normal (engine_after k gen)).1.

Definition predicted_pose (delta_t velocity yaw_rate : R) (p : Particle) : R * R * R :=
  motion_model delta_t velocity yaw_rate (p_x p) (p_y p) (p_theta p).

Definition noisy_particle (delta_t : R) (std_pos : R * R * R)
    (velocity yaw_rate : R) (p : Particle) (k : nat) (gen : engine) : Particle :=
  let m := predicted_pose delta_t velocity yaw_rate p in
  set_pose p (normal_draw k gen * std_pos.1.1 + m.1.1)
             (normal_draw (k + 1) gen * std_pos.1.2 + m.1.2)
             (normal_draw (k + 2) gen * std_pos.2 + m.2).
End Noise.

(** Two particles that differ at most in their pose. *)
Definition same_but_pose (p p' : Particle) : Prop :=
  p_id p' = p_id p /\ p_weight p' = p_weight p
  /\ p_associations p' = p_associations p
  /\ p_sense_x p' = p_sense_x p /\ p_sense_y p' = p_sense_y p.

Definition particle_at (x y theta : R) : Particle :=
  mkParticle 0 x y theta 1 [] [] [].

Definition set_initialized (pf : ParticleFilter) (flag : bool) : ParticleFilter :=
  {| num_particles := num_particles pf;
     is_initialized := flag;
     max_weight := max_weight pf;
     particles := particles pf |}.

(** A filter on which [init] has not run: no particle yet. *)
Definition filter_before_init : ParticleFilter := mkFilter 0 false 0 [].

(** A filter of one particle at [(x, y, theta)]. *)
Definition filter_of_one (x y theta : R) : ParticleFilter :=
  mkFilter 1 true 1 [particle_at x y theta].

Definition pose (p : Particle) : R * R * R := (p_x p, p_y p, p_theta p).

(** The noise a prediction call added to a particle: its stored pose minus
    the pose the motion model predicted from the particle before the call. *)
Definition noise_added (delta_t velocity yaw_rate : R) (before after : Particle) : R * R * R :=
  let m := predicted_pose delta_t velocity yaw_rate before in
  (p_x after - m.1.1, p_y after - m.1.2, p_theta after - m.2).

(** ** Weights as products of densities *)

Definition product (ds : list R) : R := foldr Rmult 1 ds.

(** [d] is the density [updateWeights] evaluates for [observation] seen
    from [particle]: the Gaussian density at the observation in the map
    frame, centred at the landmark [dataAssociation] returns for it. *)
Definition is_density (std_landmark : R * R) (map_landmarks : Map)
    (particle : Particle) (observation : LandmarkObs) (d : R) : Prop :=
  let t := transform_obs (p_x particle) (p_y particle) (p_theta particle) observation in
  exists lm,
    landmark_list map_landmarks !! Z.to_nat (dataAssociation t map_landmarks) = Some lm
    /\ d = normPdf2d (obs_x t) (obs_y t) (x_f lm) (y_f lm) std_landmark.1 std_landmark.2.

(** A map and a batch of observations that [updateWeights] can associate
    without reading [landmark_list] out of range. *)
Definition associable (map_landmarks : Map) (observations : list LandmarkObs) : Prop :=
  landmark_list map_landmarks <> [] \/ observations = [].

(** [p'] is [p] with its weight recomputed from the observations. *)
Definition reweighted (std_landmark : R * R) (observations : list LandmarkObs)
    (map_landmarks : Map) (p p' : Particle) : Prop :=
  exists ds,
    Forall2 (is_density std_landmark map_landmarks p) observations ds
    /\ p' = set_weight p (product ds).

(** Two particles of weight 1, and a filter made of them. *)
Definition particle_a : Particle := mkParticle 0 0 0 0 1 [] [] [].
Definition particle_b : Particle := mkParticle 1 5 5 0 1 [] [] [].
Definition filter_of_two : ParticleFilter := mkFilter 2 true 1 [particle_a; particle_b].

(** The same two with all weights 0, as after a weight update in which
    every weight underflowed. *)
Definition zero_a : Particle := mkParticle 0 0 0 0 0 [] [] [].
Definition zero_b : Particle := mkParticle 1 5 5 0 0 [] [] [].
Definition zero_weight_filter : ParticleFilter := mkFilter 2 true 0 [zero_a; zero_b].

(** ** The wheel as a walk around the indices

    [next_index L i] is [(i + 1) % L] for an index below [L];
    [wheel_distance L star i] is the number of advances that take the
    wheel from index [i] to index [star]. *)

Definition next_index (L i : nat) : nat := if (S i =? L)%nat then 0%nat else S i.

Definition wheel_distance (L star i : nat) : nat :=
  if (i <=? star)%nat then (star - i)%nat else (L - i + star)%nat.

(** All weights 0 under a cached maximum left at 1 by an earlier weight
    update. *)
Definition stale_zero_filter : ParticleFilter := mkFilter 2 true 1 [zero_a; zero_b].

(** ** Initialization (particle_filter.cpp, lines 27-60)

    [init] draws repeatedly from the same three [std::normal_distribution]
    objects, and such an object may keep state from one draw to the next.
    [normal_next] is a draw of mean 0 and deviation 1 from an object in a
    given state; the first draw of a fresh object is [standard_normal]. *)

Class NormalObject {RS : RandomSource} : Type := {
  normal_state : Type;
  normal_fresh : normal_state;
  normal_next : normal_state -> engine -> R * normal_state * engine;
  normal_fresh_draw : forall g,
    ((normal_next normal_fresh g).1.1, (normal_next normal_fresh g).2) = standard_normal g
}.

Section Init.
Context {RS : RandomSource} {NO : NormalObject}.

(** [dist(gen)] on a distribution object in state [d] built with
    [(mean, stddev)]. *)
Definition normal_object_draw (mean stddev : R) (d : normal_state) (gen : engine)
    : R * normal_state * engine :=
  let '(z, d', gen') := normal_next d gen in (z * stddev + mean, d', gen').

(** The local state of [init] between two iterations: the engine and the
    three distribution objects. *)
Record init_locals : Type := mkInitLocals {
  il_gen : engine;
  il_dist_x : normal_state;
  il_dist_y : normal_state;
  il_dist_theta : normal_state
}.

(** The body of the loop: the aggregate [Particle{i, dist_x(gen),
    dist_y(gen), dist_theta(gen), 1}], its elements evaluated from left to
    right, pushed at the back of [particles]. *)
Definition init_step (x y theta : R) (std : R * R * R)
    (ps : list Particle) (loc : init_locals) (i : Z) : list Particle * init_locals :=
  let '(px, dx, gen1) := normal_object_draw x std.1.1 (il_dist_x loc) (il_gen loc) in
  let '(py, dy, gen2) := normal_object_draw y std.1.2 (il_dist_y loc) gen1 in
  let '(ptheta, dtheta, gen3) := normal_object_draw theta std.2 (il_dist_theta loc) gen2 in
  (ps ++ [mkParticle i px py ptheta 1 [] [] []], mkInitLocals gen3 dx dy dtheta).

Fixpoint init_loop (x y theta : R) (std : R * R * R) (n : nat) (i : Z)
    (ps : list Particle) (loc : init_locals) : list Particle * init_locals :=
  match n with
  | O => (ps, loc)
  | S n' =>
      let st := init_step x y theta std ps loc i in
      init_loop x y theta std n' (i + 1)%Z st.1 st.2
  end.

Definition init (x y theta : R) (std : R * R * R) (pf : ParticleFilter) : ParticleFilter :=
  let num := 100%Z in
  let loc := mkInitLocals default_seeded normal_fresh normal_fresh normal_fresh in
  let st := init_loop x y theta std (Z.to_nat num) 0%Z (particles pf) loc in
  {| num_particles := num;
     is_initialized := true;
     max_weight := max_weight pf;
     particles := st.1 |}.
End Init.

(** A distribution object without state, for the example source. *)
#[global] Instance lcg_normal_object : NormalObject (RS := lcg_source).
Proof.
  refine {| normal_state := unit;
            normal_fresh := tt;
            normal_next := fun _ (g : @engine lcg_source) =>
              ((standard_normal g).1, tt, (standard_normal g).2) |}.
  intros g. reflexivity.
Defined.

(** ** Association metadata (particle_filter.cpp, lines 215-252) *)

(** [SetAssociations] assigns three members of the particle passed by
    reference. *)
Definition SetAssociations (particle : Particle) (associations : list Z)
    (sense_x sense_y : list R) : Particle :=
  {| p_id := p_id particle;
     p_x := p_x particle;
     p_y := p_y particle;
     p_theta := p_theta particle;
     p_weight := p_weight particle;
     p_associations := associations;
     p_sense_x := sense_x;
     p_sense_y := sense_y |}.

(** [a - b] on [size_t] values (below 2^64), with its wrap-around. *)
Definition size_t_minus (a b : N) : N :=
  if (a <? b)%N then (2 ^ 64 - (b - a))%N else (a - b)%N.

Fixpoint string_drop (pos : N) (s : string) : string :=
  match s with
  | EmptyString => EmptyString
  | String c s' => if (pos =? 0)%N then s else string_drop (N.pred pos) s'
  end.

Fixpoint string_take (n : N) (s : string) : string :=
  match s with
  | EmptyString => EmptyString
  | String c s' => if (n =? 0)%N then EmptyString else String c (string_take (N.pred n) s')
  end.

(** [s.substr(pos, n)]: at most [n] characters from position [pos];
    beyond the end of [s] the C++ call throws. *)
Definition substr (s : string) (pos n : N) : outcome string :=
  if (N.of_nat (String.length s) <? pos)%N then Fault
  else Done (string_take n (string_drop pos s)).

(** [copy(v.begin(), v.end(), std::ostream_iterator<T>(ss, " "))] on an
    empty stream, then [ss.str()]: every element, formatted, followed by
    one space. *)
Definition stream_copy {A : Type} (format : A -> string) (v : list A) : string :=
  fold_left (fun ss a => ss +:+ format a +:+ " ") v "".

(** [operator<<] on an [int]: decimal digits, a minus sign when negative. *)
Definition format_int (n : Z) : string := pretty n.

Definition getAssociations (best : Particle) : outcome string :=
  let v := p_associations best in
  let s := stream_copy format_int v in
  substr s 0 (size_t_minus (N.of_nat (String.length s)) 1).

Section SenseCoord.
(** [operator<<] on a [float]: the text of a real number converted to
    single precision is outside the model of reals; it is a parameter. *)
Variable format_float : R -> string.

Definition getSenseCoord (best : Particle) (coord : string) : outcome string :=
  let v := if decide (coord = "X") then p_sense_x best else p_sense_y best in
  let s := stream_copy format_float v in
  substr s 0 (size_t_minus (N.of_nat (String.length s)) 1).
End SenseCoord.

(** The elements of [v], formatted, with one space between neighbours. *)
Definition space_separated {A : Type} (format : A -> string) (v : list A) : string :=
  String.concat " " (map format v).

(** The words of a text, cut at every space; the inverse of
    [space_separated] on words without spaces. *)
Fixpoint split_spaces (s : string) : list string :=
  match s with
  | EmptyString => [EmptyString]
  | String c s' =>
      if Ascii.eqb c " "%char
      then EmptyString :: split_spaces s'
      else match split_spaces s' with
           | [] => [String c EmptyString]
           | w :: ws => String c w :: ws
           end
  end.

Fixpoint no_space (s : string) : Prop :=
  match s with
  | EmptyString => True
  | String c s' => c <> " "%char /\ no_space s'
  end.

(** ** Consistency of the particle count *)

(** [num_particles] is the size of the particle vector. *)
Definition size_consistent (pf : ParticleFilter) : Prop :=
  num_particles pf = Z.of_nat (length (particles pf)).

(** Two particles that differ at most in their weight. *)
Definition same_but_weight (p p' : Particle) : Prop :=
  p_id p' = p_id p /\ pose p' = pose p
  /\ p_associations p' = p_associations p
  /\ p_sense_x p' = p_sense_x p /\ p_sense_y p' = p_sense_y p.

(** What a particle pushed by [init x y theta std] with id [i] looks like:
    weight 1, no association metadata, and on every axis the initial
    estimate plus a multiple of the deviation. *)
Definition fresh_particle (x y theta : R) (std : R * R * R) (i : Z) (p : Particle) : Prop :=
  p_id p = i /\ p_weight p = 1
  /\ p_associations p = [] /\ p_sense_x p = [] /\ p_sense_y p = []
  /\ exists zx zy ztheta,
       pose p = (zx * std.1.1 + x, zy * std.1.2 + y, ztheta * std.2 + theta).

(** Two landmarks farther from the origin than the initial [min_dist]. *)
Definition lm_far : single_landmark_s := mkLandmark 3 2000000 0.
Definition lm_less_far : single_landmark_s := mkLandmark 4 1000000 0.

(** * Properties *)

(** ** Arithmetic helpers *)

Lemma sqrt_of_square (a b : R) : 0 <= a -> a * a = b -> sqrt b = a.
Proof. intros Ha <-. now apply sqrt_square. Qed.

Lemma double_to_int_floor (r : R) (z : Z) :
  0 <= r -> IZR z <= r < IZR z + 1 -> double_to_int r = z.
Proof.
  intros Hr [H1 H2]. unfold double_to_int.
  destruct (Rle_dec 0 r) as [_ | Hn]; [| contradiction].
  symmetry. apply Int_part_spec. lra.
Qed.

(** ** Data association *)

Lemma dist_origin_half : euclidean_dist obs_origin lm_half = 1 / 2.
Proof. unfold euclidean_dist; cbn. apply sqrt_of_square; lra. Qed.

Lemma dist_origin_origin : euclidean_dist obs_origin lm_origin = 0.
Proof. unfold euclidean_dist; cbn. apply sqrt_of_square; lra. Qed.

(** C1, at the failing input: the observation (0, 0) coincides with the
    landmark of index 1, yet [dataAssociation] returns index 0, the
    landmark at distance 1/2: that distance was stored in the [int]
    [min_dist] as 0, and no later distance is below 0. *)
Theorem dataAssociation_truncates_min_dist :
  dataAssociation obs_origin (mkMap [lm_half; lm_origin]) = 0%Z
  /\ [lm_half; lm_origin] !! 1%nat = Some lm_origin
  /\ euclidean_dist obs_origin lm_origin < euclidean_dist obs_origin lm_half.
Proof.
  split; [| split].
  - unfold dataAssociation; cbn [landmark_list dataAssociation_loop].
    rewrite dist_origin_half, dist_origin_origin.
    destruct (Rlt_dec (1 / 2) 999999) as [_ | Hn]; [| exfalso; apply Hn; lra].
    rewrite (double_to_int_floor (1 / 2) 0) by lra.
    destruct (Rlt_dec 0 0) as [Hlt | _]; [lra | reflexivity].
  - reflexivity.
  - rewrite dist_origin_half, dist_origin_origin. lra.
Qed.

(** The loop returns the index it started with or an index it visited. *)
Lemma dataAssociation_loop_range observation lms :
  forall i c m,
    let r := dataAssociation_loop observation lms i c m in
    r = c \/ (i <= r < i + Z.of_nat (length lms))%Z.
Proof.
  induction lms as [| lm rest IH]; intros i c m; cbn.
  - now left.
  - destruct (Rlt_dec _ _).
    + destruct (IH (i + 1)%Z i (double_to_int (euclidean_dist observation lm)))
        as [-> | H]; right; lia.
    + destruct (IH (i + 1)%Z c m) as [-> | H]; [now left | right; lia].
Qed.

Lemma dataAssociation_in_range observation map_landmarks :
  landmark_list map_landmarks <> [] ->
  (0 <= dataAssociation observation map_landmarks
     < Z.of_nat (length (landmark_list map_landmarks)))%Z.
Proof.
  intros Hne. unfold dataAssociation.
  destruct (dataAssociation_loop_range observation (landmark_list map_landmarks)
              0%Z 0%Z 999999%Z) as [-> | H]; [| lia].
  destruct (landmark_list map_landmarks); [contradiction | cbn; lia].
Qed.

Lemma at_index_in_range {A : Type} (v : list A) (i : Z) :
  (0 <= i < Z.of_nat (length v))%Z -> exists a, at_index v i = Done a /\ v !! Z.to_nat i = Some a.
Proof.
  intros [H0 H1]. unfold at_index.
  destruct (Z.ltb_spec i 0); [lia |].
  destruct (lookup_lt_is_Some_2 v (Z.to_nat i)) as [a Ha]; [lia |].
  exists a. now rewrite Ha.
Qed.

(** C7, counterexample: on the empty landmark collection [dataAssociation]
    returns the index 0, the very value it returns on a map whose only
    landmark is the nearest one; nothing signals the empty map. *)
Lemma dataAssociation_empty_map_returns :
  dataAssociation obs_origin (mkMap []) = 0%Z
  /\ dataAssociation obs_origin (mkMap [lm_origin]) = 0%Z.
Proof.
  split; [reflexivity |].
  unfold dataAssociation; cbn [landmark_list dataAssociation_loop].
  destruct (Rlt_dec _ _); reflexivity.
Qed.

(** C7, amended: on an empty landmark collection [dataAssociation] raises
    no error: the loop body never runs and it returns its initial value,
    the index 0, for every observation.  That index is outside the empty
    collection, so the read of [landmark_list[0]] that follows in
    [updateWeights] is out of range. *)
Theorem dataAssociation_empty_map_default
    (observation : LandmarkObs) (map_landmarks : Map) :
  landmark_list map_landmarks = [] ->
  dataAssociation observation map_landmarks = 0%Z
  /\ forall std_landmark particle w,
       weight_step std_landmark map_landmarks particle w observation = Fault.
Proof.
  intros Hempty.
  assert (H0 : forall o, dataAssociation o map_landmarks = 0%Z).
  { intros o. unfold dataAssociation. now rewrite Hempty. }
  split; [apply H0 |].
  intros std_landmark particle w. unfold weight_step.
  rewrite H0, Hempty. reflexivity.
Qed.

Lemma dataAssociation_empty_map_default_witness :
  dataAssociation obs_origin (mkMap []) = 0%Z
  /\ forall std_landmark particle w,
       weight_step std_landmark (mkMap []) particle w obs_origin = Fault.
Proof.
  apply (dataAssociation_empty_map_default obs_origin (mkMap [])). reflexivity.
Defined.

(** ** Prediction *)

Section PredictionFacts.
Context {RS : RandomSource}.
Variables (delta_t : R) (std_pos : R * R * R) (velocity yaw_rate : R).

Lemma engine_after_add (a b : nat) (gen : engine) :
  engine_after a (engine_after b gen) = engine_after (a + b) gen.
Proof. unfold engine_after. now rewrite Nat.iter_add. Qed.

Lemma normal_draw_shift (a b : nat) (gen : engine) :
  normal_draw a (engine_after b gen) = normal_draw (a + b) gen.
Proof. unfold normal_draw. now rewrite engine_after_add. Qed.

Lemma prediction_step_eq ps gen i p :
  at_index ps i = Done p ->
  prediction_step delta_t std_pos velocity yaw_rate ps gen i
  = Done (<[Z.to_nat i := noisy_particle delta_t std_pos velocity yaw_rate p 0 gen]> ps,
          engine_after 3 gen).
Proof.
  intros Hp. unfold prediction_step. rewrite Hp. cbn.
  unfold noisy_particle, predicted_pose, normal_distribution, normal_draw, engine_after.
  destruct (motion_model _ _ _ _ _ _) as [[mx my] mt]. cbn.
  destruct (standard_normal gen) as [z1 g1]. cbn.
  destruct (standard_normal g1) as [z2 g2]. cbn.
  destruct (standard_normal g2) as [z3 g3]. reflexivity.
Qed.

Lemma prediction_step_fault ps gen i :
  at_index ps i = Fault ->
  prediction_step delta_t std_pos velocity yaw_rate ps gen i = Fault.
Proof. intros Hp. unfold prediction_step. now rewrite Hp. Qed.

Lemma at_index_of_nat {A : Type} (v : list A) (k : nat) :
  at_index v (Z.of_nat k) = match v !! k with Some a => Done a | None => Fault end.
Proof.
  unfold at_index. destruct (Z.ltb_spec (Z.of_nat k) 0); [lia |].
  now rewrite Nat2Z.id.
Qed.

(** What the loop computes when its indices are within the vector: the
    particles [k .. k+n-1] are moved and perturbed by consecutive draws,
    the others are left as they are. *)
Lemma prediction_loop_spec (n : nat) :
  forall (k : nat) (ps : list Particle) (gen : engine),
    (k + n <= length ps)%nat ->
    exists ps',
      prediction_loop delta_t std_pos velocity yaw_rate n (Z.of_nat k) ps gen
      = Done (ps', engine_after (3 * n) gen)
      /\ length ps' = length ps
      /\ forall j p, ps !! j = Some p ->
           ps' !! j = Some (if decide (k <= j < k + n)%nat
                            then noisy_particle delta_t std_pos velocity yaw_rate
                                   p (3 * (j - k)) gen
                            else p).
Proof.
  induction n as [| n IH]; intros k ps gen Hlen.
  - exists ps. cbn. split; [reflexivity | split; [reflexivity |]].
    intros j p Hj. destruct (decide _); [lia | exact Hj].
  - destruct (lookup_lt_is_Some_2 ps k) as [pk Hpk]; [lia |].
    cbn [prediction_loop].
    rewrite (prediction_step_eq ps gen (Z.of_nat k) pk)
      by (rewrite at_index_of_nat, Hpk; reflexivity).
    cbn [mbind outcome_bind fst snd]. rewrite Nat2Z.id.
    replace (Z.of_nat k + 1)%Z with (Z.of_nat (S k)) by lia.
    set (ps1 := <[k := noisy_particle delta_t std_pos velocity yaw_rate pk 0 gen]> ps).
    destruct (IH (S k) ps1 (engine_after 3 gen)) as (ps' & Hrun & Hl & Hspec).
    { unfold ps1. rewrite length_insert. lia. }
    exists ps'. split; [| split].
    + rewrite Hrun, engine_after_add. do 3 f_equal. lia.
    + rewrite Hl. unfold ps1. apply length_insert.
    + intros j p Hj.
      destruct (decide (j = k)) as [-> | Hne].
      * assert (p = pk) as -> by congruence.
        rewrite (Hspec k (noisy_particle delta_t std_pos velocity yaw_rate pk 0 gen)).
        2: { unfold ps1. apply list_lookup_insert_eq. lia. }
        destruct (decide (S k <= k < S k + n)%nat); [lia |].
        destruct (decide (k <= k < k + S n)%nat); [| lia].
        now rewrite Nat.sub_diag.
      * rewrite (Hspec j p).
        2: { unfold ps1. rewrite list_lookup_insert_ne by congruence. exact Hj. }
        destruct (decide (S k <= j < S k + n)%nat);
          destruct (decide (k <= j < k + S n)%nat); try lia; [| reflexivity].
        f_equal. unfold noisy_particle.
        rewrite !normal_draw_shift. do 4 f_equal; lia.
Qed.

(** When [num_particles] exceeds the size of the vector the loop reads
    [particles[i]] out of range. *)
Lemma prediction_loop_out_of_range (n : nat) :
  forall (k : nat) (ps : list Particle) (gen : engine),
    (k <= length ps < k + n)%nat ->
    prediction_loop delta_t std_pos velocity yaw_rate n (Z.of_nat k) ps gen = Fault.
Proof.
  induction n as [| n IH]; intros k ps gen Hlen; [lia |].
  cbn [prediction_loop].
  destruct (decide (k = length ps)) as [-> | Hne].
  - rewrite prediction_step_fault; [reflexivity |].
    rewrite at_index_of_nat, lookup_ge_None_2 by lia. reflexivity.
  - destruct (lookup_lt_is_Some_2 ps k) as [pk Hpk]; [lia |].
    rewrite (prediction_step_eq ps gen (Z.of_nat k) pk)
      by (rewrite at_index_of_nat, Hpk; reflexivity).
    cbn [mbind outcome_bind fst snd].
    replace (Z.of_nat k + 1)%Z with (Z.of_nat (S k)) by lia.
    apply IH. rewrite length_insert. lia.
Qed.
End PredictionFacts.

Section PredictionTheorems.
Context {RS : RandomSource}.

(** What a call of [prediction] returns when [num_particles] does not
    exceed the size of the vector: the first [num_particles] particles
    are moved and perturbed by the draws of a default-seeded engine. *)
Lemma prediction_spec delta_t std_pos velocity yaw_rate pf :
  (num_particles pf <= Z.of_nat (length (particles pf)))%Z ->
  exists ps',
    prediction delta_t std_pos velocity yaw_rate pf = Done (set_particles pf ps')
    /\ length ps' = length (particles pf)
    /\ forall j p, particles pf !! j = Some p ->
         ps' !! j = Some (if decide (j < Z.to_nat (num_particles pf))%nat
                          then noisy_particle delta_t std_pos velocity yaw_rate
                                 p (3 * j) default_seeded
                          else p).
Proof.
  intros Hn.
  destruct (prediction_loop_spec delta_t std_pos velocity yaw_rate
              (Z.to_nat (num_particles pf)) 0 (particles pf) default_seeded)
    as (ps' & Hrun & Hlen & Hspec); [lia |].
  exists ps'. split; [| split; [exact Hlen |]].
  - unfold prediction. change 0%Z with (Z.of_nat 0). now rewrite Hrun.
  - intros j p Hj. rewrite (Hspec j p Hj).
    destruct (decide (0 <= j < 0 + Z.to_nat (num_particles pf))%nat);
      destruct (decide (j < Z.to_nat (num_particles pf))%nat); try lia; [| reflexivity].
    now rewrite Nat.sub_0_r.
Qed.

Lemma noisy_particle_same_but_pose delta_t std_pos velocity yaw_rate p k gen :
  same_but_pose p (noisy_particle delta_t std_pos velocity yaw_rate p k gen).
Proof. repeat split. Qed.

Lemma same_but_pose_refl p : same_but_pose p p.
Proof. repeat split. Qed.
End PredictionTheorems.

(** C10: [prediction] changes nothing but the pose of the particles: the
    number of particles, the other members of the filter and, for every
    particle, its id, weight, associations, sense_x and sense_y are as
    before the call. *)
Theorem prediction_changes_only_pose {RS : RandomSource}
    (delta_t : R) (std_pos : R * R * R) (velocity yaw_rate : R) (pf : ParticleFilter) :
  (num_particles pf <= Z.of_nat (length (particles pf)))%Z ->
  exists pf',
    prediction delta_t std_pos velocity yaw_rate pf = Done pf'
    /\ length (particles pf') = length (particles pf)
    /\ num_particles pf' = num_particles pf
    /\ is_initialized pf' = is_initialized pf
    /\ max_weight pf' = max_weight pf
    /\ forall j p, particles pf !! j = Some p ->
         exists p', particles pf' !! j = Some p' /\ same_but_pose p p'.
Proof.
  intros Hn.
  destruct (prediction_spec delta_t std_pos velocity yaw_rate pf Hn)
    as (ps' & Hrun & Hlen & Hspec).
  exists (set_particles pf ps'). cbn [particles set_particles].
  repeat split; try assumption.
  intros j p Hj. rewrite (Hspec j p Hj).
  destruct (decide _); eexists; split; try reflexivity.
  - apply noisy_particle_same_but_pose.
  - apply same_but_pose_refl.
Qed.

Lemma prediction_changes_only_pose_witness :
  exists pf',
    prediction (RS := lcg_source) 1 (1, 1, 1) 10 0 (filter_of_one 0 0 0) = Done pf'
    /\ length (particles pf') = 1%nat
    /\ num_particles pf' = 1%Z
    /\ is_initialized pf' = true
    /\ max_weight pf' = 1
    /\ forall j p, [particle_at 0 0 0] !! j = Some p ->
         exists p', particles pf' !! j = Some p' /\ same_but_pose p p'.
Proof.
  apply (prediction_changes_only_pose (RS := lcg_source) 1 (1, 1, 1) 10 0
           (filter_of_one 0 0 0)).
  cbn. lia.
Defined.

Lemma motion_model_straight (delta_t velocity x y theta : R) :
  motion_model delta_t velocity 0 x y theta
  = (x + velocity * cos theta * delta_t, y + velocity * sin theta * delta_t, theta).
Proof.
  unfold motion_model. destruct (Req_dec_T 0 0) as [_ | Hn]; [reflexivity | now destruct Hn].
Qed.

Lemma motion_model_arc (delta_t velocity yaw_rate x y theta : R) :
  yaw_rate <> 0 ->
  motion_model delta_t velocity yaw_rate x y theta
  = (x + velocity / yaw_rate * (sin (theta + yaw_rate * delta_t) - sin theta),
     y + velocity / yaw_rate * (cos theta - cos (theta + yaw_rate * delta_t)),
     theta + yaw_rate * delta_t).
Proof.
  intros Hw. unfold motion_model.
  destruct (Req_dec_T yaw_rate 0) as [H0 | _]; [contradiction |].
  replace (velocity * (sin (theta + yaw_rate * delta_t) - sin theta) / yaw_rate)
    with (velocity / yaw_rate * (sin (theta + yaw_rate * delta_t) - sin theta))
    by (field; exact Hw).
  replace (velocity * (- cos (theta + yaw_rate * delta_t) + cos theta) / yaw_rate)
    with (velocity / yaw_rate * (cos theta - cos (theta + yaw_rate * delta_t)))
    by (field; exact Hw).
  reflexivity.
Qed.




(** ** The random source is rebuilt by every call *)

Lemma noise_added_noisy_particle {RS : RandomSource}
    delta_t std_pos velocity yaw_rate p k gen :
  noise_added delta_t velocity yaw_rate p
    (noisy_particle delta_t std_pos velocity yaw_rate p k gen)
  = (normal_draw k gen * std_pos.1.1,
     normal_draw (k + 1) gen * std_pos.1.2,
     normal_draw (k + 2) gen * std_pos.2).
Proof.
  unfold noise_added, noisy_particle. cbn [set_pose p_x p_y p_theta].
  f_equal; [f_equal |]; ring.
Qed.

(** Two calls in a row, the second on the result of the first: every
    particle the loop reaches receives the same noise in both. *)
Lemma prediction_twice {RS : RandomSource}
    delta_t1 velocity1 yaw_rate1 delta_t2 velocity2 yaw_rate2 std_pos pf :
  (num_particles pf <= Z.of_nat (length (particles pf)))%Z ->
  exists pf1 pf2,
    prediction delta_t1 std_pos velocity1 yaw_rate1 pf = Done pf1
    /\ prediction delta_t2 std_pos velocity2 yaw_rate2 pf1 = Done pf2
    /\ forall j p, (j < Z.to_nat (num_particles pf))%nat -> particles pf !! j = Some p ->
         exists p1 p2,
           particles pf1 !! j = Some p1 /\ particles pf2 !! j = Some p2
           /\ noise_added delta_t2 velocity2 yaw_rate2 p1 p2
              = noise_added delta_t1 velocity1 yaw_rate1 p p1.
Proof.
  intros Hn.
  destruct (prediction_spec delta_t1 std_pos velocity1 yaw_rate1 pf Hn)
    as (ps1 & Hrun1 & Hlen1 & Hspec1).
  destruct (prediction_spec delta_t2 std_pos velocity2 yaw_rate2 (set_particles pf ps1))
    as (ps2 & Hrun2 & Hlen2 & Hspec2).
  { cbn [num_particles particles set_particles]. rewrite Hlen1. exact Hn. }
  cbn [num_particles particles set_particles] in Hrun2, Hlen2, Hspec2.
  exists (set_particles pf ps1), (set_particles pf ps2).
  split; [exact Hrun1 | split; [exact Hrun2 |]].
  intros j p Hj Hp. cbn [particles set_particles].
  pose proof (Hspec1 j p Hp) as H1.
  destruct (decide (j < Z.to_nat (num_particles pf))%nat) as [_ | Hge]; [| lia].
  pose proof (Hspec2 j _ H1) as H2.
  destruct (decide (j < Z.to_nat (num_particles pf))%nat) as [_ | Hge]; [| lia].
  eexists _, _. split; [exact H1 | split; [exact H2 |]].
  now rewrite !noise_added_noisy_particle.
Qed.

(** C9, counterexample: two calls of [prediction] in a row with the same
    arguments, deviations (1, 1, 1), on a filter of one particle: the
    noise added by the second call is the noise added by the first. *)
Lemma prediction_repeats_noise_example :
  exists pf1 pf2 p1 p2,
    prediction (RS := lcg_source) 1 (1, 1, 1) 10 0 (filter_of_one 0 0 0) = Done pf1
    /\ prediction (RS := lcg_source) 1 (1, 1, 1) 10 0 pf1 = Done pf2
    /\ particles pf1 !! 0%nat = Some p1 /\ particles pf2 !! 0%nat = Some p2
    /\ noise_added 1 10 0 p1 p2 = noise_added 1 10 0 (particle_at 0 0 0) p1
    /\ (noise_added 1 10 0 (particle_at 0 0 0) p1).1.1 = 16807 / 2147483647 - 1 / 2.
Proof.
  destruct (prediction_twice (RS := lcg_source) 1 10 0 1 10 0 (1, 1, 1) (filter_of_one 0 0 0))
    as (pf1 & pf2 & H1 & H2 & H); [cbn; lia |].
  destruct (H 0%nat (particle_at 0 0 0)) as (p1 & p2 & Hp1 & Hp2 & Hnoise);
    [cbn; lia | reflexivity |].
  exists pf1, pf2, p1, p2. repeat (split; [assumption |]).
  destruct (prediction_spec (RS := lcg_source) 1 (1, 1, 1) 10 0 (filter_of_one 0 0 0))
    as (ps1 & Hrun1 & _ & Hspec1); [cbn; lia |].
  rewrite Hrun1 in H1. injection H1 as <-. cbn [particles set_particles] in Hp1.
  rewrite (Hspec1 0%nat (particle_at 0 0 0)) in Hp1 by reflexivity.
  cbn [filter_of_one num_particles] in Hp1. change (Z.to_nat 1) with 1%nat in Hp1.
  destruct (decide (0 < 1)%nat) as [_ | Hge]; [| lia].
  injection Hp1 as <-. rewrite noise_added_noisy_particle.
  cbn [fst snd Nat.mul]. unfold normal_draw, engine_after. cbn.
  unfold lcg_next. change ((16807 * 1) mod 2147483647)%Z with 16807%Z. lra.
Qed.

(** C9, amended: the generator is not part of the filter state; every call
    of [prediction] builds a default-seeded engine, so its draws are those
    of the call before.  Two calls in a row with the same deviations, the
    second on the result of the first, add the same noise to each of the
    first [num_particles] particles, whatever the other arguments. *)
Theorem prediction_noise_repeats {RS : RandomSource}
    (delta_t1 velocity1 yaw_rate1 delta_t2 velocity2 yaw_rate2 : R)
    (std_pos : R * R * R) (pf : ParticleFilter) :
  (num_particles pf <= Z.of_nat (length (particles pf)))%Z ->
  exists pf1 pf2,
    prediction delta_t1 std_pos velocity1 yaw_rate1 pf = Done pf1
    /\ prediction delta_t2 std_pos velocity2 yaw_rate2 pf1 = Done pf2
    /\ forall j p, (j < Z.to_nat (num_particles pf))%nat -> particles pf !! j = Some p ->
         exists p1 p2,
           particles pf1 !! j = Some p1 /\ particles pf2 !! j = Some p2
           /\ noise_added delta_t1 velocity1 yaw_rate1 p p1
              = (normal_draw (3 * j) default_seeded * std_pos.1.1,
                 normal_draw (3 * j + 1) default_seeded * std_pos.1.2,
                 normal_draw (3 * j + 2) default_seeded * std_pos.2)
           /\ noise_added delta_t2 velocity2 yaw_rate2 p1 p2
              = noise_added delta_t1 velocity1 yaw_rate1 p p1.
Proof.
  intros Hn.
  destruct (prediction_twice delta_t1 velocity1 yaw_rate1 delta_t2 velocity2 yaw_rate2
              std_pos pf Hn) as (pf1 & pf2 & H1 & H2 & H).
  exists pf1, pf2. split; [exact H1 | split; [exact H2 |]].
  intros j p Hj Hp. destruct (H j p Hj Hp) as (p1 & p2 & Hp1 & Hp2 & Hnoise).
  exists p1, p2. split; [exact Hp1 | split; [exact Hp2 | split; [| exact Hnoise]]].
  destruct (prediction_spec delta_t1 std_pos velocity1 yaw_rate1 pf Hn)
    as (ps1 & Hrun1 & _ & Hspec1).
  rewrite Hrun1 in H1. injection H1 as <-. cbn [particles set_particles] in Hp1.
  rewrite (Hspec1 j p Hp) in Hp1.
  destruct (decide _) as [_ | Hge]; [| lia].
  injection Hp1 as <-. apply noise_added_noisy_particle.
Qed.

Lemma prediction_noise_repeats_witness :
  exists pf1 pf2,
    prediction (RS := lcg_source) 1 (1, 1, 1) 10 0 (filter_of_one 0 0 0) = Done pf1
    /\ prediction (RS := lcg_source) 2 (1, 1, 1) 5 1 pf1 = Done pf2
    /\ forall j p, (j < 1)%nat -> [particle_at 0 0 0] !! j = Some p ->
         exists p1 p2,
           particles pf1 !! j = Some p1 /\ particles pf2 !! j = Some p2
           /\ noise_added 1 10 0 p p1
              = (normal_draw (3 * j) default_seeded * 1,
                 normal_draw (3 * j + 1) default_seeded * 1,
                 normal_draw (3 * j + 2) default_seeded * 1)
           /\ noise_added 2 5 1 p1 p2 = noise_added 1 10 0 p p1.
Proof.
  apply (prediction_noise_repeats (RS := lcg_source) 1 10 0 2 5 1 (1, 1, 1)
           (filter_of_one 0 0 0)).
  cbn. lia.
Defined.

(** ** No initialization check *)

(** C8, counterexample: on a filter on which [init] has not run,
    [prediction] and [updateWeights] return normally. *)
Lemma calls_before_init_return :
  prediction (RS := lcg_source) 1 (1, 1, 1) 10 0 filter_before_init
  = Done filter_before_init
  /\ updateWeights 50 (1, 1) [obs_origin] (mkMap [lm_origin]) filter_before_init
     = Done filter_before_init.
Proof. split; reflexivity. Qed.

(** C8, amended: [prediction] and [updateWeights] do not check
    [is_initialized]: on a filter whose flag is false they do what they do
    on the same filter with the flag set.  Called before [init], on a
    filter without particles, both return normally: [prediction] leaves
    the filter as it is and [updateWeights] only sets [max_weight] to 0. *)
Theorem no_initialization_check {RS : RandomSource}
    (delta_t : R) (std_pos : R * R * R) (velocity yaw_rate : R)
    (sensor_range : R) (std_landmark : R * R)
    (observations : list LandmarkObs) (map_landmarks : Map) (pf : ParticleFilter) :
  is_initialized pf = false ->
  prediction delta_t std_pos velocity yaw_rate pf
  = (fun pf' => set_initialized pf' false)
      <$> prediction delta_t std_pos velocity yaw_rate (set_initialized pf true)
  /\ updateWeights sensor_range std_landmark observations map_landmarks pf
     = (fun pf' => set_initialized pf' false)
         <$> updateWeights sensor_range std_landmark observations map_landmarks
               (set_initialized pf true)
  /\ (particles pf = [] -> num_particles pf = 0%Z ->
      prediction delta_t std_pos velocity yaw_rate pf = Done pf
      /\ updateWeights sensor_range std_landmark observations map_landmarks pf
         = Done (set_max_weight pf 0)).
Proof.
  intros Hflag. destruct pf as [n flag mw ps]. cbn in Hflag. subst flag.
  split; [| split].
  - unfold prediction. cbn [num_particles particles set_initialized].
    destruct (prediction_loop _ _ _ _ _ _ _ _) as [st | |]; reflexivity.
  - unfold updateWeights. cbn [num_particles particles set_initialized].
    destruct (particles_loop _ _ _ _ _) as [st | |]; reflexivity.
  - cbn [particles num_particles]. intros -> ->. split; reflexivity.
Qed.

Lemma no_initialization_check_witness :
  prediction (RS := lcg_source) 1 (1, 1, 1) 10 0 filter_before_init
  = Done filter_before_init
  /\ updateWeights 50 (1, 1) [obs_origin] (mkMap [lm_origin]) filter_before_init
     = Done (set_max_weight filter_before_init 0).
Proof.
  refine (proj2 (proj2 (no_initialization_check (RS := lcg_source) 1 (1, 1, 1) 10 0
                          50 (1, 1) [obs_origin] (mkMap [lm_origin])
                          filter_before_init _)) _ _); reflexivity.
Defined.

(** ** Weight update *)

Lemma normPdf2d_pos (x y mu_x mu_y sig_x sig_y : R) :
  0 < sig_x -> 0 < sig_y -> 0 < normPdf2d x y mu_x mu_y sig_x sig_y.
Proof.
  intros Hx Hy. unfold normPdf2d.
  apply Rmult_lt_0_compat; [| apply exp_pos].
  apply Rdiv_lt_0_compat; [lra |].
  pose proof PI_RGT_0 as Hpi.
  apply Rmult_lt_0_compat; [apply Rmult_lt_0_compat |]; lra.
Qed.

Lemma product_nonneg (ds : list R) : Forall (fun d => 0 <= d) ds -> 0 <= product ds.
Proof.
  induction 1 as [| d ds Hd _ IH]; cbn; [lra |].
  now apply Rmult_le_pos.
Qed.

Section WeightFacts.
Variables (std_landmark : R * R) (map_landmarks : Map).

Lemma weight_step_density particle w observation :
  landmark_list map_landmarks <> [] ->
  exists d,
    weight_step std_landmark map_landmarks particle w observation = Done (w * d)
    /\ is_density std_landmark map_landmarks particle observation d.
Proof.
  intros Hne. unfold weight_step, is_density.
  set (t := transform_obs _ _ _ observation).
  destruct (at_index_in_range (landmark_list map_landmarks)
              (dataAssociation t map_landmarks)) as (lm & Hat & Hlk).
  { now apply dataAssociation_in_range. }
  rewrite Hat. cbn. eexists. split; [reflexivity |]. exists lm. split; [exact Hlk | reflexivity].
Qed.

(** The running weight after the loop is the weight before it times the
    product of the densities of the observations. *)
Lemma observations_loop_product particle observations :
  associable map_landmarks observations ->
  forall w,
    exists ds,
      observations_loop std_landmark map_landmarks particle w observations
      = Done (w * product ds)
      /\ Forall2 (is_density std_landmark map_landmarks particle) observations ds.
Proof.
  intros Hassoc. induction observations as [| o rest IH]; intros w.
  - exists []. cbn [observations_loop]. split; [| constructor].
    f_equal. unfold product. cbn [foldr]. ring.
  - destruct Hassoc as [Hne | Hnil]; [| discriminate].
    destruct (weight_step_density particle w o Hne) as (d & Hstep & Hd).
    destruct (IH (or_introl Hne) (w * d)) as (ds & Hrun & Hds).
    exists (d :: ds). cbn [observations_loop]. rewrite Hstep. cbn [mbind outcome_bind].
    rewrite Hrun. split; [| now constructor].
    f_equal. unfold product. cbn [foldr]. ring.
Qed.

(** The loop over the particles: every particle is reweighted, and the
    running maximum ends as the larger of its initial value and the
    largest new weight. *)
Lemma particles_loop_spec observations :
  associable map_landmarks observations ->
  forall ps max_w,
    exists ps' max_w',
      particles_loop std_landmark observations map_landmarks ps max_w = Done (ps', max_w')
      /\ Forall2 (reweighted std_landmark observations map_landmarks) ps ps'
      /\ max_w <= max_w'
      /\ Forall (fun p' => p_weight p' <= max_w') ps'
      /\ (max_w' = max_w \/ exists p', p' ∈ ps' /\ p_weight p' = max_w').
Proof.
  intros Hassoc. induction ps as [| p rest IH]; intros max_w.
  - exists [], max_w. cbn [particles_loop].
    split; [reflexivity |]. split; [constructor |]. split; [lra |].
    split; [constructor | now left].
  - destruct (observations_loop_product p observations Hassoc 1) as (ds & Hw & Hds).
    rewrite Rmult_1_l in Hw.
    set (w := product ds) in *.
    destruct (IH (if Rgt_dec w max_w then w else max_w))
      as (ps' & max_w' & Hrun & Hall & Hle & Hbound & Hmax).
    exists (set_weight p w :: ps'), max_w'.
    cbn [particles_loop]. rewrite Hw. cbn [mbind outcome_bind]. rewrite Hrun.
    cbn [mbind outcome_bind fst snd].
    split; [reflexivity |]. split; [| split; [| split]].
    + constructor; [| exact Hall]. exists ds. split; [exact Hds | reflexivity].
    + destruct (Rgt_dec w max_w); lra.
    + constructor; [| exact Hbound]. cbn. destruct (Rgt_dec w max_w); lra.
    + destruct Hmax as [Heq | (p' & Hin & Hp')].
      * destruct (Rgt_dec w max_w) as [Hgt | Hngt].
        -- right. exists (set_weight p w). split; [apply list_elem_of_here | cbn; lra].
        -- now left.
      * right. exists p'. split; [now apply list_elem_of_further | exact Hp'].
Qed.
End WeightFacts.

Lemma updateWeights_spec sensor_range std_landmark observations map_landmarks pf :
  associable map_landmarks observations ->
  exists ps' max_w',
    updateWeights sensor_range std_landmark observations map_landmarks pf
    = Done (set_max_weight (set_particles pf ps') max_w')
    /\ Forall2 (reweighted std_landmark observations map_landmarks) (particles pf) ps'
    /\ 0 <= max_w'
    /\ Forall (fun p' => p_weight p' <= max_w') ps'
    /\ (max_w' = 0 \/ exists p', p' ∈ ps' /\ p_weight p' = max_w').
Proof.
  intros Hassoc.
  destruct (particles_loop_spec std_landmark map_landmarks observations Hassoc
              (particles pf) 0) as (ps' & max_w' & Hrun & H).
  exists ps', max_w'. split; [| exact H].
  unfold updateWeights. now rewrite Hrun.
Qed.

Lemma reweighted_nonneg std_landmark observations map_landmarks p p' :
  0 < std_landmark.1 -> 0 < std_landmark.2 ->
  reweighted std_landmark observations map_landmarks p p' -> 0 <= p_weight p'.
Proof.
  intros Hx Hy (ds & Hds & ->). cbn [set_weight p_weight].
  apply product_nonneg.
  induction Hds as [| o d os ds Hd _ IH]; constructor; [| exact IH].
  destruct Hd as (lm & _ & ->). left. now apply normPdf2d_pos.
Qed.

(** C4: [updateWeights] sets the weight of every particle to the product,
    over the observations of the batch, of the Gaussian density at the
    observation transformed to the map frame with that particle's pose,
    centred at the landmark associated with it; the product starts from 1
    (it is 1 for an empty batch).  The pose of the particle is left as it
    is. *)
Theorem updateWeights_product_of_densities
    (sensor_range : R) (std_landmark : R * R) (observations : list LandmarkObs)
    (map_landmarks : Map) (pf : ParticleFilter) :
  associable map_landmarks observations ->
  exists pf',
    updateWeights sensor_range std_landmark observations map_landmarks pf = Done pf'
    /\ length (particles pf') = length (particles pf)
    /\ forall j p, particles pf !! j = Some p ->
         exists p' ds,
           particles pf' !! j = Some p'
           /\ Forall2 (is_density std_landmark map_landmarks p) observations ds
           /\ p_weight p' = foldr Rmult 1 ds
           /\ pose p' = pose p.
Proof.
  intros Hassoc.
  destruct (updateWeights_spec sensor_range std_landmark observations map_landmarks pf
              Hassoc) as (ps' & max_w' & Hrun & Hall & _).
  eexists. split; [exact Hrun |]. cbn [particles set_particles set_max_weight].
  split; [symmetry; exact (Forall2_length _ _ _ Hall) |].
  intros j p Hj.
  destruct (Forall2_lookup_l _ _ _ _ _ Hall Hj) as (p' & Hp' & ds & Hds & ->).
  exists (set_weight p (product ds)), ds. repeat split; assumption.
Qed.

Lemma updateWeights_product_of_densities_witness :
  exists pf',
    updateWeights 50 (1, 1) [obs_origin] (mkMap [lm_half; lm_origin]) (filter_of_one 0 0 0)
    = Done pf'
    /\ length (particles pf') = 1%nat
    /\ forall j p, [particle_at 0 0 0] !! j = Some p ->
         exists p' ds,
           particles pf' !! j = Some p'
           /\ Forall2 (is_density (1, 1) (mkMap [lm_half; lm_origin]) p) [obs_origin] ds
           /\ p_weight p' = foldr Rmult 1 ds
           /\ pose p' = pose p.
Proof.
  apply (updateWeights_product_of_densities 50 (1, 1) [obs_origin]
           (mkMap [lm_half; lm_origin]) (filter_of_one 0 0 0)).
  left. discriminate.
Defined.

(** C6: after [updateWeights] on a non-empty particle set, with positive
    measurement deviations, the cached [max_weight] is the maximum of the
    weights: some particle has that weight and no particle exceeds it. *)
Theorem updateWeights_max_weight
    (sensor_range : R) (std_landmark : R * R) (observations : list LandmarkObs)
    (map_landmarks : Map) (pf : ParticleFilter) :
  associable map_landmarks observations ->
  0 < std_landmark.1 -> 0 < std_landmark.2 ->
  particles pf <> [] ->
  exists pf',
    updateWeights sensor_range std_landmark observations map_landmarks pf = Done pf'
    /\ (exists p', p' ∈ particles pf' /\ p_weight p' = max_weight pf')
    /\ (forall p', p' ∈ particles pf' -> p_weight p' <= max_weight pf').
Proof.
  intros Hassoc Hx Hy Hne.
  destruct (updateWeights_spec sensor_range std_landmark observations map_landmarks pf
              Hassoc) as (ps' & max_w' & Hrun & Hall & Hle & Hbound & Hmax).
  eexists. split; [exact Hrun |].
  cbn [particles max_weight set_particles set_max_weight]. split.
  - destruct Hmax as [-> | Hex]; [| exact Hex].
    destruct Hall as [| p p' ps ps' Hp _]; [contradiction |].
    exists p'. split; [apply list_elem_of_here |].
    apply Rle_antisym.
    + exact (Forall_inv Hbound).
    + exact (reweighted_nonneg _ _ _ _ _ Hx Hy Hp).
  - intros p' Hin. rewrite Forall_forall in Hbound. now apply Hbound.
Qed.

Lemma updateWeights_max_weight_witness :
  exists pf',
    updateWeights 50 (1, 1) [obs_origin] (mkMap [lm_half; lm_origin]) (filter_of_one 0 0 0)
    = Done pf'
    /\ (exists p', p' ∈ particles pf' /\ p_weight p' = max_weight pf')
    /\ (forall p', p' ∈ particles pf' -> p_weight p' <= max_weight pf').
Proof.
  apply (updateWeights_max_weight 50 (1, 1) [obs_origin]
           (mkMap [lm_half; lm_origin]) (filter_of_one 0 0 0)).
  - left. discriminate.
  - cbn. lra.
  - cbn. lra.
  - discriminate.
Defined.

(** ** Resampling *)

Section ResampleFacts.
Context {RS : RandomSource}.

Lemma uniform_real_distribution_range (a b : R) (gen : engine) :
  a <= b ->
  a <= (uniform_real_distribution a b gen).1 <= b
  /\ (a < b -> (uniform_real_distribution a b gen).1 < b).
Proof.
  intros Hab. unfold uniform_real_distribution.
  pose proof (generate_canonical_range gen) as Hu.
  destruct (generate_canonical gen) as [u gen']. cbn in Hu |- *.
  assert (0 <= u * (b - a)) by (apply Rmult_le_pos; lra).
  assert (u * (b - a) <= 1 * (b - a)) by (apply Rmult_le_compat_r; lra).
  split; [lra |]. intros Hlt.
  assert (u * (b - a) < 1 * (b - a)) by (apply Rmult_lt_compat_r; lra). lra.
Qed.

(** The starting index: the weight vector of [rand_index] is empty, so the
    distribution has the single outcome 0. *)
Lemma discrete_distribution_zero (last : Z) (gen : engine) :
  (discrete_distribution 0 last gen).1 = 0%Z.
Proof.
  unfold discrete_distribution, vector_fill.
  change (replicate (Z.to_nat 0) (IZR last)) with (@nil R).
  pose proof (discrete_sample_range [] gen) as H.
  change (Z.of_nat (Nat.max 1 (length (@nil R)))) with 1%Z in H. lia.
Qed.

(** The loop only appends to [resampled_particles], once per iteration,
    and what it appends are elements of the particle vector. *)
Lemma resample_loop_appends fuel ps N max_w (n : nat) :
  forall b index gen acc r,
    resample_loop fuel ps N max_w n b index gen acc = Done r ->
    exists sel, r = acc ++ sel /\ length sel = n /\ Forall (fun p => p ∈ ps) sel.
Proof.
  induction n as [| n IH]; intros b index gen acc r Hrun; cbn [resample_loop] in Hrun.
  - injection Hrun as <-. exists []. rewrite app_nil_r. repeat split. constructor.
  - destruct (uniform_real_distribution 0 max_w gen) as [beta gen'].
    destruct (wheel fuel ps N (b + beta) index) as [[b' index'] | |];
      cbn [mbind outcome_bind fst snd] in Hrun; try discriminate.
    destruct (at_index ps index') as [p | |] eqn:Hp;
      cbn [mbind outcome_bind] in Hrun; try discriminate.
    destruct (IH _ _ _ _ _ Hrun) as (sel & -> & Hlen & Hall).
    exists (p :: sel). rewrite <- app_assoc. split; [reflexivity |].
    split; [cbn; now rewrite Hlen |]. constructor; [| exact Hall].
    unfold at_index in Hp. destruct (index' <? 0)%Z; [discriminate |].
    destruct (ps !! Z.to_nat index') as [q |] eqn:Hq; [| discriminate].
    injection Hp as <-. apply list_elem_of_lookup. eauto.
Qed.

(** Whenever [resample] returns, the new set has [num_particles] elements,
    each a copy of a particle of the old set. *)
Lemma resample_size_and_copies fuel pf pf' :
  resample fuel pf = Done pf' ->
  length (particles pf') = Z.to_nat (num_particles pf)
  /\ Forall (fun p => p ∈ particles pf) (particles pf')
  /\ num_particles pf' = num_particles pf /\ max_weight pf' = max_weight pf.
Proof.
  unfold resample.
  destruct (discrete_distribution 0 (num_particles pf) default_seeded) as [index gen'].
  intros Hrun.
  destruct (resample_loop _ _ _ _ _ _ _ _ _) as [r | |] eqn:Hloop;
    cbn [mbind outcome_bind] in Hrun; try discriminate.
  injection Hrun as <-. cbn [particles set_particles num_particles max_weight].
  destruct (resample_loop_appends _ _ _ _ _ _ _ _ _ _ Hloop) as (sel & -> & Hlen & Hall).
  cbn [app]. auto.
Qed.
End ResampleFacts.

Section ResampleZero.
Context {RS : RandomSource}.

(** With [max_weight] 0 every draw of [rand_beta] is 0. *)
Lemma rand_beta_zero (gen : engine) : (uniform_real_distribution 0 0 gen).1 = 0.
Proof.
  destruct (uniform_real_distribution_range 0 0 gen) as [H _]; lra.
Qed.

(** On a particle of weight 0 at the current index, an accumulator at 0
    and [max_weight] 0, the wheel never turns: each of the [n] iterations
    appends that same particle. *)
Lemma resample_loop_stalls fuel ps N index p (n : nat) :
  at_index ps index = Done p -> p_weight p = 0 ->
  forall b gen acc,
    b = 0 ->
    resample_loop (S fuel) ps N 0 n b index gen acc = Done (acc ++ replicate n p).
Proof.
  intros Hat Hw. induction n as [| n IH]; intros b gen acc Hb; cbn [resample_loop].
  - cbn. now rewrite app_nil_r.
  - pose proof (rand_beta_zero gen) as Hbeta.
    destruct (uniform_real_distribution 0 0 gen) as [beta gen']. cbn [fst] in Hbeta.
    cbn [wheel]. rewrite Hat. cbn [mbind outcome_bind].
    destruct (Rgt_dec (b + beta) (p_weight p)) as [Hgt | _]; [lra |].
    cbn [mbind outcome_bind fst snd]. rewrite Hat. cbn [mbind outcome_bind].
    rewrite IH by lra. now rewrite <- app_assoc.
Qed.
End ResampleZero.

(** On weights that are all 0 a positive accumulator never stops the
    wheel. *)
Lemma wheel_spins {RS : RandomSource} (fuel : nat) :
  forall b index,
    0 < b -> index = 0%Z \/ index = 1%Z ->
    wheel fuel [zero_a; zero_b] 2 b index = OutOfFuel.
Proof.
  induction fuel as [| fuel IH]; intros b index Hb Hidx; [reflexivity |].
  cbn [wheel].
  destruct Hidx as [-> | ->].
  - change (at_index [zero_a; zero_b] 0) with (Done zero_a).
    cbn [mbind outcome_bind zero_a p_weight].
    destruct (Rgt_dec b 0) as [_ | Hn]; [| contradiction].
    change (2 =? 0)%Z with false. cbn iota. apply IH; [lra | now right].
  - change (at_index [zero_a; zero_b] 1) with (Done zero_b).
    cbn [mbind outcome_bind zero_b p_weight].
    destruct (Rgt_dec b 0) as [_ | Hn]; [| contradiction].
    change (2 =? 0)%Z with false. cbn iota. apply IH; [lra | now left].
Qed.

(** C3, counterexample: on two particles of weight 0 and [max_weight] 0,
    whatever the random source, a [resample] that returns has put the
    first particle in both places, and with the example source it does
    return: the second particle is never selected.  With the cached
    [max_weight] still at 1 the call does not return, whatever the
    fuel. *)
Lemma resample_all_zero_not_uniform :
  (forall (RS : RandomSource) fuel pf',
     resample fuel zero_weight_filter = Done pf' -> particles pf' = [zero_a; zero_a])
  /\ resample (RS := lcg_source) 1 zero_weight_filter
     = Done (set_particles zero_weight_filter [zero_a; zero_a])
  /\ (forall fuel, resample (RS := lcg_source) fuel stale_zero_filter = OutOfFuel).
Proof.
  assert (Hrun : forall (RS : RandomSource) fuel,
             resample (S fuel) zero_weight_filter
             = Done (set_particles zero_weight_filter [zero_a; zero_a])).
  { intros RS fuel. unfold resample.
    pose proof (discrete_distribution_zero (num_particles zero_weight_filter)
                  default_seeded) as Hidx.
    destruct (discrete_distribution 0 (num_particles zero_weight_filter) default_seeded)
      as [index gen']. cbn [fst] in Hidx. subst index.
    cbn [zero_weight_filter num_particles particles max_weight].
    change (Z.to_nat 2) with 2%nat.
    rewrite (resample_loop_stalls fuel [zero_a; zero_b] 2 0 zero_a 2) by reflexivity.
    reflexivity. }
  split; [| split; [apply Hrun |]].
  - intros RS [| fuel] pf' H.
    + unfold resample in H.
      destruct (discrete_distribution 0 (num_particles zero_weight_filter) default_seeded)
        as [index gen'].
      cbn [zero_weight_filter num_particles particles max_weight] in H.
      change (Z.to_nat 2) with 2%nat in H. cbn [resample_loop] in H.
      destruct (uniform_real_distribution 0 0 gen') as [beta gen'']. discriminate.
    + rewrite Hrun in H. injection H as <-. reflexivity.
  - intros fuel. unfold resample.
    pose proof (discrete_distribution_zero (RS := lcg_source)
                  (num_particles stale_zero_filter) default_seeded) as Hidx.
    destruct (discrete_distribution (RS := lcg_source) 0
                (num_particles stale_zero_filter) default_seeded)
      as [index gen'] eqn:Hdraw. cbn [fst] in Hidx. subst index.
    injection Hdraw as Hgen.
    cbn [stale_zero_filter num_particles particles max_weight].
    change (Z.to_nat 2) with 2%nat. cbn [resample_loop].
    unfold uniform_real_distribution.
    change (generate_canonical gen')
      with (IZR (lcg_next gen') / 2147483647, lcg_next gen').
    rewrite <- Hgen. change (lcg_next (lcg_next 1)) with 282475249%Z.
    rewrite wheel_spins; [reflexivity | lra | now left].
Qed.

(** C3, amended: when every weight is 0 and the cached [max_weight] is 0,
    [resample] returns without error, for any fuel of at least one test of
    the loop condition per draw, and the new set has the size of the old
    one; it holds that many copies of one particle of the old set.  There
    is no fallback to uniform resampling. *)
Theorem resample_all_zero_weights {RS : RandomSource}
    (fuel : nat) (pf : ParticleFilter) :
  particles pf <> [] ->
  num_particles pf = Z.of_nat (length (particles pf)) ->
  max_weight pf = 0 ->
  Forall (fun p => p_weight p = 0) (particles pf) ->
  exists k p,
    particles pf !! k = Some p
    /\ resample (S fuel) pf
       = Done (set_particles pf (replicate (length (particles pf)) p)).
Proof.
  intros Hne HN Hmax Hzero.
  destruct (particles pf) as [| p0 rest] eqn:Hps; [contradiction |].
  exists 0%nat, p0. split; [reflexivity |].
  unfold resample.
  pose proof (discrete_distribution_zero (num_particles pf) default_seeded) as Hidx.
  destruct (discrete_distribution 0 (num_particles pf) default_seeded) as [index gen'].
  cbn [fst] in Hidx. subst index. rewrite Hps, Hmax, HN, Nat2Z.id.
  rewrite (resample_loop_stalls fuel (p0 :: rest) _ 0 p0).
  - reflexivity.
  - reflexivity.
  - exact (Forall_inv Hzero).
  - reflexivity.
Qed.

Lemma resample_all_zero_weights_witness :
  exists k p,
    [zero_a; zero_b] !! k = Some p
    /\ resample (RS := lcg_source) 1 zero_weight_filter
       = Done (set_particles zero_weight_filter (replicate 2 p)).
Proof.
  apply (resample_all_zero_weights (RS := lcg_source) 0 zero_weight_filter).
  - discriminate.
  - reflexivity.
  - reflexivity.
  - repeat constructor.
Defined.

(** C2, at the failing input: on two particles of weight 1, with
    [max_weight] 1, the first resampled particle is the particle of index
    0 whatever the random source: the wheel starts at index 0, never at
    index 1, since [rand_index] has the single outcome 0. *)
Theorem resample_starts_at_index_zero {RS : RandomSource} :
  (forall last gen, (discrete_distribution 0 last gen).1 = 0%Z)
  /\ exists p,
       resample 2 filter_of_two = Done (set_particles filter_of_two [particle_a; p]).
Proof.
  split; [apply discrete_distribution_zero |].
  unfold resample.
  pose proof (discrete_distribution_zero (num_particles filter_of_two) default_seeded)
    as Hidx.
  destruct (discrete_distribution 0 (num_particles filter_of_two) default_seeded)
    as [index gen0]. cbn [fst] in Hidx. subst index.
  cbn [filter_of_two num_particles particles max_weight].
  change (Z.to_nat 2) with 2%nat. cbn [resample_loop].
  destruct (uniform_real_distribution_range 0 1 gen0) as [H1 H1']; [lra |].
  destruct (uniform_real_distribution 0 1 gen0) as [beta1 gen1]. cbn [fst] in H1, H1'.
  destruct (uniform_real_distribution_range 0 1 gen1) as [H2 H2']; [lra |].
  destruct (uniform_real_distribution 0 1 gen1) as [beta2 gen2]. cbn [fst] in H2, H2'.
  assert (Hb1 : beta1 < 1) by (apply H1'; lra).
  assert (Hb2 : beta2 < 1) by (apply H2'; lra).
  cbn [wheel]. change (at_index [particle_a; particle_b] 0) with (Done particle_a).
  cbn [mbind outcome_bind particle_a p_weight].
  destruct (Rgt_dec (0 + beta1) 1) as [Hgt | _]; [lra |].
  cbn [mbind outcome_bind fst snd].
  change (at_index [particle_a; particle_b] 0) with (Done particle_a).
  cbn [mbind outcome_bind particle_a p_weight].
  destruct (Rgt_dec (0 + beta1 + beta2) 1) as [Hgt | Hle].
  - change (2 =? 0)%Z with false. cbn iota.
    change (Z.rem (0 + 1) 2) with 1%Z.
    change (at_index [particle_a; particle_b] 1) with (Done particle_b).
    cbn [mbind outcome_bind particle_b p_weight].
    destruct (Rgt_dec (0 + beta1 + beta2 - 1) 1) as [Hgt' | _]; [lra |].
    cbn [mbind outcome_bind fst snd].
    change (at_index [particle_a; particle_b] 1) with (Done particle_b).
    exists particle_b. reflexivity.
  - cbn [mbind outcome_bind fst snd].
    change (at_index [particle_a; particle_b] 0) with (Done particle_a).
    exists particle_a. reflexivity.
Qed.

(** ** Termination of the wheel *)

Lemma archimedean_multiple (b w : R) : 0 < w -> exists m : nat, b <= INR m * w.
Proof.
  intros Hw. destruct (INR_unbounded (b / w)) as [m Hm]. exists m.
  apply Rlt_le. apply (Rmult_lt_compat_r w) in Hm; [| exact Hw].
  unfold Rdiv in Hm. rewrite Rmult_assoc, Rinv_l, Rmult_1_r in Hm; lra.
Qed.

Lemma rem_next_index (L i : nat) :
  (i < L)%nat -> Z.rem (Z.of_nat i + 1) (Z.of_nat L) = Z.of_nat (next_index L i).
Proof.
  intros Hi. rewrite Z.rem_mod_nonneg by lia. unfold next_index.
  destruct (Nat.eqb_spec (S i) L) as [<- | Hne].
  - replace (Z.of_nat i + 1)%Z with (Z.of_nat (S i)) by lia.
    now rewrite Z_mod_same_full.
  - rewrite Z.mod_small by lia. lia.
Qed.

Lemma next_index_lt (L i : nat) : (i < L)%nat -> (next_index L i < L)%nat.
Proof. unfold next_index. destruct (Nat.eqb_spec (S i) L); lia. Qed.

Lemma wheel_distance_lt (L star i : nat) :
  (star < L)%nat -> (i < L)%nat -> (wheel_distance L star i < L)%nat.
Proof. unfold wheel_distance. destruct (Nat.leb_spec i star); lia. Qed.

Lemma wheel_distance_zero (L star i : nat) :
  (i < L)%nat -> wheel_distance L star i = 0%nat -> i = star.
Proof. unfold wheel_distance. destruct (Nat.leb_spec i star); lia. Qed.

Lemma wheel_distance_next (L star i : nat) :
  (star < L)%nat -> (i < L)%nat -> i <> star ->
  S (wheel_distance L star (next_index L i)) = wheel_distance L star i.
Proof.
  intros Hs Hi Hne. unfold wheel_distance, next_index.
  destruct (Nat.eqb_spec (S i) L); destruct (Nat.leb_spec i star);
    try destruct (Nat.leb_spec 0 star); try destruct (Nat.leb_spec (S i) star); lia.
Qed.

Section WheelFacts.
Context {RS : RandomSource}.
Variables (ps : list Particle) (star : nat) (pstar : Particle).
Hypothesis weights_nonneg : Forall (fun p => 0 <= p_weight p) ps.
Hypothesis star_lookup : ps !! star = Some pstar.
Hypothesis star_positive : 0 < p_weight pstar.

Lemma star_lt : (star < length ps)%nat.
Proof. exact (lookup_lt_Some _ _ _ star_lookup). Qed.

Lemma wheel_stop fuel b i p :
  ps !! i = Some p -> b <= p_weight p ->
  wheel (S fuel) ps (Z.of_nat (length ps)) b (Z.of_nat i) = Done (b, Z.of_nat i).
Proof.
  intros Hp Hb. cbn [wheel]. rewrite at_index_of_nat, Hp. cbn [mbind outcome_bind].
  destruct (Rgt_dec b (p_weight p)); [lra | reflexivity].
Qed.

Lemma wheel_advance fuel b i p :
  ps !! i = Some p -> p_weight p < b ->
  wheel (S fuel) ps (Z.of_nat (length ps)) b (Z.of_nat i)
  = wheel fuel ps (Z.of_nat (length ps)) (b - p_weight p)
      (Z.of_nat (next_index (length ps) i)).
Proof.
  intros Hp Hb. pose proof (lookup_lt_Some _ _ _ Hp) as Hi.
  cbn [wheel]. rewrite at_index_of_nat, Hp. cbn [mbind outcome_bind].
  destruct (Rgt_dec b (p_weight p)) as [_ | Hn]; [| exfalso; apply Hn; lra].
  destruct (Z.eqb_spec (Z.of_nat (length ps)) 0); [lia |].
  now rewrite rem_next_index.
Qed.

(** The wheel stops: each pass over the particle [pstar] takes its
    positive weight off the accumulator, and no other advance adds to
    it. *)
Lemma wheel_terminates (m : nat) :
  forall (d : nat) (b : R) (i : nat),
    (i < length ps)%nat ->
    (wheel_distance (length ps) star i <= d)%nat ->
    b <= INR m * p_weight pstar ->
    exists fuel b' i',
      wheel fuel ps (Z.of_nat (length ps)) b (Z.of_nat i) = Done (b', Z.of_nat i')
      /\ (i' < length ps)%nat.
Proof.
  pose proof star_lt as Hstar.
  induction m as [| m IHm].
  - intros d b i Hi _ Hb. cbn [INR] in Hb. rewrite Rmult_0_l in Hb.
    destruct (lookup_lt_is_Some_2 ps i Hi) as [p Hp].
    pose proof (Forall_lookup_1 _ _ _ _ weights_nonneg Hp) as Hw. cbn in Hw.
    exists 1%nat, b, i. split; [apply (wheel_stop 0 b i p Hp); lra | exact Hi].
  - assert (Hpass : forall b,
               p_weight pstar < b -> b <= INR (S m) * p_weight pstar ->
               exists fuel b' i',
                 wheel fuel ps (Z.of_nat (length ps)) b (Z.of_nat star)
                 = Done (b', Z.of_nat i') /\ (i' < length ps)%nat).
    { intros b Hgt Hb. rewrite S_INR in Hb.
      destruct (IHm (length ps) (b - p_weight pstar) (next_index (length ps) star))
        as (fuel & b' & i' & Hrun & Hi').
      - now apply next_index_lt.
      - apply Nat.lt_le_incl, wheel_distance_lt; [exact Hstar | now apply next_index_lt].
      - lra.
      - exists (S fuel), b', i'. split; [| exact Hi'].
        now rewrite (wheel_advance fuel b star pstar star_lookup Hgt). }
    induction d as [| d IHd]; intros b i Hi Hd Hb.
    + assert (i = star) as -> by (apply (wheel_distance_zero (length ps)); [exact Hi | lia]).
      destruct (Rle_lt_dec b (p_weight pstar)) as [Hle | Hgt].
      * exists 1%nat, b, star. split; [now apply (wheel_stop 0 b star pstar) | exact Hi].
      * now apply (Hpass b).
    + destruct (lookup_lt_is_Some_2 ps i Hi) as [p Hp].
      pose proof (Forall_lookup_1 _ _ _ _ weights_nonneg Hp) as Hw. cbn in Hw.
      destruct (Rle_lt_dec b (p_weight p)) as [Hle | Hgt].
      * exists 1%nat, b, i. split; [now apply (wheel_stop 0 b i p) | exact Hi].
      * destruct (decide (i = star)) as [-> | Hne].
        -- assert (p = pstar) as -> by congruence. now apply (Hpass b).
        -- destruct (IHd (b - p_weight p) (next_index (length ps) i))
             as (fuel & b' & i' & Hrun & Hi').
           ++ now apply next_index_lt.
           ++ pose proof (wheel_distance_next (length ps) star i Hstar Hi Hne). lia.
           ++ lra.
           ++ exists (S fuel), b', i'. split; [| exact Hi'].
              now rewrite (wheel_advance fuel b i p Hp Hgt).
Qed.

Lemma wheel_fuel_mono N (fuel : nat) :
  forall b index r fuel',
    wheel fuel ps N b index = Done r -> (fuel <= fuel')%nat ->
    wheel fuel' ps N b index = Done r.
Proof.
  induction fuel as [| fuel IH]; intros b index r fuel' Hrun Hle; [discriminate |].
  destruct fuel' as [| fuel']; [lia |]. cbn [wheel] in Hrun |- *.
  destruct (at_index ps index) as [p | |]; cbn [mbind outcome_bind] in Hrun |- *;
    try discriminate.
  destruct (Rgt_dec b (p_weight p)); [| exact Hrun].
  destruct (N =? 0)%Z; [discriminate |]. apply IH; [exact Hrun | lia].
Qed.

Lemma resample_loop_fuel_mono N max_w (n : nat) :
  forall fuel fuel' b index gen acc r,
    resample_loop fuel ps N max_w n b index gen acc = Done r -> (fuel <= fuel')%nat ->
    resample_loop fuel' ps N max_w n b index gen acc = Done r.
Proof.
  induction n as [| n IH]; intros fuel fuel' b index gen acc r Hrun Hle;
    cbn [resample_loop] in Hrun |- *; [exact Hrun |].
  destruct (uniform_real_distribution 0 max_w gen) as [beta gen'].
  destruct (wheel fuel ps N (b + beta) index) as [st | |] eqn:Hw;
    cbn [mbind outcome_bind] in Hrun; try discriminate.
  rewrite (wheel_fuel_mono N fuel _ _ _ fuel' Hw Hle). cbn [mbind outcome_bind].
  destruct (at_index ps st.2) as [p | |]; cbn [mbind outcome_bind] in Hrun |- *;
    try discriminate.
  now apply (IH fuel).
Qed.

(** With enough fuel the [for] loop runs to its end. *)
Lemma resample_loop_terminates max_w (n : nat) :
  forall b (i : nat) gen acc,
    (i < length ps)%nat ->
    exists fuel r,
      resample_loop fuel ps (Z.of_nat (length ps)) max_w n b (Z.of_nat i) gen acc = Done r.
Proof.
  induction n as [| n IH]; intros b i gen acc Hi.
  - exists 0%nat, acc. reflexivity.
  - cbn [resample_loop].
    destruct (uniform_real_distribution 0 max_w gen) as [beta gen'].
    destruct (archimedean_multiple (b + beta) (p_weight pstar) star_positive) as [m Hm].
    destruct (wheel_terminates m (length ps) (b + beta) i Hi) as (f1 & b' & i' & Hw & Hi').
    { apply Nat.lt_le_incl, wheel_distance_lt; [exact star_lt | exact Hi]. }
    { exact Hm. }
    destruct (lookup_lt_is_Some_2 ps i' Hi') as [p Hp].
    destruct (IH b' i' gen' (acc ++ [p]) Hi') as (f2 & r & Hrest).
    exists (Nat.max f1 f2), r.
    rewrite (wheel_fuel_mono _ f1 _ _ _ (Nat.max f1 f2) Hw) by lia.
    cbn [mbind outcome_bind fst snd]. rewrite at_index_of_nat, Hp.
    cbn [mbind outcome_bind].
    apply (resample_loop_fuel_mono _ _ _ f2); [exact Hrest | lia].
Qed.
End WheelFacts.

(** Apart from where the wheel starts, [resample] does what the wheel
    algorithm asks: on a particle set with weights that are not negative
    and one that is positive, with enough fuel, it returns a set of the
    same size in which every element is a copy of a particle of the old
    set. *)
Lemma resample_returns_copies {RS : RandomSource} (pf : ParticleFilter) :
  num_particles pf = Z.of_nat (length (particles pf)) ->
  Forall (fun p => 0 <= p_weight p) (particles pf) ->
  (exists p, p ∈ particles pf /\ 0 < p_weight p) ->
  exists fuel pf',
    resample fuel pf = Done pf'
    /\ length (particles pf') = length (particles pf)
    /\ Forall (fun p => p ∈ particles pf) (particles pf').
Proof.
  intros HN Hnonneg (pstar & Hin & Hpos).
  apply list_elem_of_lookup in Hin as [star Hstar].
  pose proof (lookup_lt_Some _ _ _ Hstar) as Hlt.
  pose proof (discrete_distribution_zero (num_particles pf) default_seeded) as Hidx.
  destruct (discrete_distribution 0 (num_particles pf) default_seeded)
    as [index gen'] eqn:Hdraw. cbn [fst] in Hidx. subst index.
  destruct (resample_loop_terminates (particles pf) star pstar Hnonneg Hstar Hpos
              (max_weight pf) (length (particles pf)) 0 0%nat gen' [])
    as (fuel & r & Hrun); [lia |].
  assert (Hres : resample fuel pf = Done (set_particles pf r)).
  { unfold resample. cbv zeta. rewrite Hdraw. cbv beta iota.
    rewrite HN, Nat2Z.id. change (Z.of_nat 0) with 0%Z in Hrun. now rewrite Hrun. }
  exists fuel, (set_particles pf r). split; [exact Hres |].
  destruct (resample_size_and_copies fuel pf _ Hres) as (Hlen & Hall & _).
  split; [| exact Hall]. rewrite Hlen, HN. apply Nat2Z.id.
Qed.

(** ** Text of the association metadata *)

Lemma append_cons (c : ascii) (a b : string) : String c a +:+ b = String c (a +:+ b).
Proof. reflexivity. Qed.

Lemma append_nil_r (a : string) : a +:+ "" = a.
Proof. induction a as [| c a IH]; [reflexivity |]. now rewrite append_cons, IH. Qed.

Lemma append_assoc (a b c : string) : (a +:+ b) +:+ c = a +:+ b +:+ c.
Proof. induction a as [| x a IH]; [reflexivity |]. now rewrite !append_cons, IH. Qed.

Lemma length_append (a b : string) :
  String.length (a +:+ b) = (String.length a + String.length b)%nat.
Proof. induction a as [| x a IH]; [reflexivity |]. rewrite append_cons. cbn. now rewrite IH. Qed.

Lemma string_take_append (s t : string) :
  string_take (N.of_nat (String.length s)) (s +:+ t) = s.
Proof.
  induction s as [| c s IH].
  - destruct t; reflexivity.
  - rewrite append_cons. cbn [string_take String.length].
    destruct (N.eqb_spec (N.of_nat (S (String.length s))) 0) as [H | _]; [lia |].
    replace (N.pred (N.of_nat (S (String.length s)))) with (N.of_nat (String.length s)) by lia.
    now rewrite IH.
Qed.

Section StreamCopy.
Context {A : Type} (format : A -> string).

Lemma stream_copy_from (v : list A) (ss : string) :
  fold_left (fun ss a => ss +:+ format a +:+ " ") v ss
  = ss +:+ stream_copy format v.
Proof.
  unfold stream_copy. revert ss.
  induction v as [| a v IH]; intros ss; cbn [fold_left].
  - now rewrite append_nil_r.
  - rewrite IH, (IH ("" +:+ format a +:+ " ")). now rewrite !append_assoc.
Qed.

Lemma stream_copy_cons (a : A) (v : list A) :
  stream_copy format (a :: v) = format a +:+ " " +:+ stream_copy format v.
Proof.
  unfold stream_copy at 1. cbn [fold_left]. rewrite stream_copy_from.
  change ("" +:+ format a +:+ " ") with (format a +:+ " ").
  now rewrite append_assoc.
Qed.

(** The stream holds the words separated by spaces, and one more space. *)
Lemma stream_copy_trailing (a : A) (v : list A) :
  stream_copy format (a :: v) = space_separated format (a :: v) +:+ " ".
Proof.
  revert a. induction v as [| b v IH]; intros a.
  - reflexivity.
  - rewrite stream_copy_cons, (IH b). unfold space_separated.
    cbn [map String.concat]. now rewrite !append_assoc.
Qed.

(** Dropping the last character of the stream leaves the words with single
    spaces between them; on an empty stream the length minus one wraps
    around and [substr] returns the empty text. *)
Lemma stream_copy_trimmed (v : list A) :
  substr (stream_copy format v) 0
    (size_t_minus (N.of_nat (String.length (stream_copy format v))) 1)
  = Done (space_separated format v).
Proof.
  destruct v as [| a v]; [reflexivity |].
  rewrite stream_copy_trailing. set (body := space_separated format (a :: v)).
  unfold substr. destruct (N.ltb_spec (N.of_nat (String.length (body +:+ " "))) 0); [lia |].
  f_equal. rewrite length_append. cbn [String.length].
  unfold size_t_minus.
  destruct (N.ltb_spec (N.of_nat (String.length body + 1)) 1); [lia |].
  replace (N.of_nat (String.length body + 1) - 1)%N with (N.of_nat (String.length body)) by lia.
  assert (Hdrop : forall s, string_drop 0 s = s) by (intros [| c s]; reflexivity).
  rewrite Hdrop. apply string_take_append.
Qed.
End StreamCopy.

Lemma split_spaces_word (w : string) : no_space w -> split_spaces w = [w].
Proof.
  induction w as [| c w IH]; [reflexivity |]. intros [Hc Hw]. cbn [split_spaces].
  destruct (Ascii.eqb_spec c " "); [contradiction |]. now rewrite IH.
Qed.

Lemma split_spaces_append (w rest : string) :
  no_space w -> split_spaces (w +:+ String " " rest) = w :: split_spaces rest.
Proof.
  induction w as [| c w IH]; [reflexivity |]. intros [Hc Hw].
  rewrite append_cons. cbn [split_spaces].
  destruct (Ascii.eqb_spec c " "); [contradiction |]. now rewrite IH.
Qed.

Lemma split_spaces_concat (ws : list string) :
  Forall no_space ws -> ws <> [] -> split_spaces (String.concat " " ws) = ws.
Proof.
  induction 1 as [| w ws Hw Hws IH]; [contradiction |]. intros _.
  destruct ws as [| w' ws].
  - now apply split_spaces_word.
  - change (String.concat " " (w :: w' :: ws))
      with (w +:+ String " " (String.concat " " (w' :: ws))).
    rewrite split_spaces_append by exact Hw. now rewrite IH.
Qed.

Lemma pretty_N_char_no_space (x : N) : pretty_N_char x <> " "%char.
Proof. unfold pretty_N_char. repeat case_match; discriminate. Qed.

Lemma pretty_N_go_no_space (x : N) :
  forall s, no_space s -> no_space (pretty_N_go x s).
Proof.
  induction (N.lt_wf_0 x) as [x _ IH]; intros s Hs.
  destruct (decide (x = 0%N)) as [-> | Hx]; [now rewrite pretty_N_go_0 |].
  rewrite pretty_N_go_step by lia. apply IH.
  - apply N.div_lt; lia.
  - split; [apply pretty_N_char_no_space | exact Hs].
Qed.

Lemma pretty_N_go_length (x : N) :
  forall s, (String.length s <= String.length (pretty_N_go x s))%nat.
Proof.
  induction (N.lt_wf_0 x) as [x _ IH]; intros s.
  destruct (decide (x = 0%N)) as [-> | Hx]; [now rewrite pretty_N_go_0 |].
  rewrite pretty_N_go_step by lia.
  etrans; [| apply IH, N.div_lt; lia]. cbn. lia.
Qed.

Lemma pretty_positive_spec (x : positive) :
  no_space (pretty x) /\ pretty x <> "".
Proof.
  unfold pretty, pretty_positive, pretty, pretty_N.
  destruct (decide (N.pos x = 0%N)) as [H | _]; [discriminate |].
  split; [now apply pretty_N_go_no_space |].
  rewrite pretty_N_go_step by lia. intros Hempty.
  pose proof (pretty_N_go_length (N.pos x `div` 10)
                (String (pretty_N_char (N.pos x `mod` 10)) "")) as Hlen.
  rewrite Hempty in Hlen. cbn in Hlen. lia.
Qed.

Lemma format_int_spec (n : Z) : no_space (format_int n) /\ format_int n <> "".
Proof.
  unfold format_int, pretty, pretty_Z. destruct n as [| x | x].
  - split; [cbn; repeat split; discriminate | discriminate].
  - apply pretty_positive_spec.
  - destruct (pretty_positive_spec x) as [Hs _].
    split; [| discriminate]. split; [discriminate | exact Hs].
Qed.

Lemma space_separated_ints_inj (v1 v2 : list Z) :
  space_separated format_int v1 = space_separated format_int v2 -> v1 = v2.
Proof.
  assert (Hne : forall a v, space_separated format_int (a :: v) <> "").
  { intros a v H. unfold space_separated in H. cbn [map String.concat] in H.
    destruct (format_int_spec a) as [_ Ha].
    destruct (format_int a) as [| c s] eqn:Hf; [contradiction |].
    destruct (map format_int v); discriminate. }
  assert (Hsplit : forall a v,
             split_spaces (space_separated format_int (a :: v)) = map format_int (a :: v)).
  { intros a v. apply split_spaces_concat; [| discriminate].
    apply Forall_forall. intros w Hw. apply list_elem_of_fmap in Hw as (n & -> & _).
    apply format_int_spec. }
  intros Heq. destruct v1 as [| a1 v1], v2 as [| a2 v2].
  - reflexivity.
  - symmetry in Heq. now apply Hne in Heq.
  - now apply Hne in Heq.
  - assert (Hmap : map format_int (a1 :: v1) = map format_int (a2 :: v2))
      by (rewrite <- !Hsplit; now rewrite Heq).
    revert Hmap. apply (inj (fmap format_int)).
Qed.

(** X1: [getAssociations] never throws and renders the associations in
    decimal with exactly one space between neighbours and none at the end;
    for a particle without associations the result is the empty text (the
    length minus one wraps around and [substr] takes the whole, empty,
    stream). *)
Theorem getAssociations_text (best : Particle) :
  getAssociations best
  = Done (String.concat " " (map format_int (p_associations best)))
  /\ (p_associations best = [] -> getAssociations best = Done "").
Proof.
  assert (H : getAssociations best
              = Done (String.concat " " (map format_int (p_associations best))))
    by apply (stream_copy_trimmed format_int).
  split; [exact H |]. intros Hnil. rewrite H, Hnil. reflexivity.
Qed.

Lemma getAssociations_text_witness :
  getAssociations (particle_at 0 0 0) = Done "".
Proof.
  apply (proj2 (getAssociations_text (particle_at 0 0 0))). reflexivity.
Defined.

(** X2: the text of [getAssociations] determines the associations: two
    particles with the same text have the same list of landmark ids. *)
Theorem getAssociations_injective (best best' : Particle) :
  getAssociations best = getAssociations best' ->
  p_associations best = p_associations best'.
Proof.
  intros Heq.
  rewrite (stream_copy_trimmed format_int (p_associations best) : getAssociations best = _)
    in Heq.
  rewrite (stream_copy_trimmed format_int (p_associations best') : getAssociations best' = _)
    in Heq.
  injection Heq as Heq. now apply space_separated_ints_inj.
Qed.

Lemma getAssociations_injective_witness :
  p_associations (SetAssociations particle_a [3; -12; 40]%Z [] [])
  = p_associations (SetAssociations particle_b [3; -12; 40]%Z [1] [2]).
Proof.
  apply (getAssociations_injective
           (SetAssociations particle_a [3; -12; 40]%Z [] [])
           (SetAssociations particle_b [3; -12; 40]%Z [1] [2])).
  reflexivity.
Defined.

(** X3: [getSenseCoord] renders [sense_x] when [coord] is exactly "X" and
    [sense_y] for every other [coord] (also for "x", "Y" or the empty
    text), with one space between neighbours and none at the end. *)
Theorem getSenseCoord_selects (format_float : R -> string) (best : Particle) :
  getSenseCoord format_float best "X"
  = Done (String.concat " " (map format_float (p_sense_x best)))
  /\ forall coord,
       coord <> "X" ->
       getSenseCoord format_float best coord
       = Done (String.concat " " (map format_float (p_sense_y best))).
Proof.
  split.
  - apply (stream_copy_trimmed format_float (p_sense_x best)).
  - intros coord Hne. unfold getSenseCoord.
    destruct (decide (coord = "X")) as [Heq | _]; [contradiction |].
    apply (stream_copy_trimmed format_float (p_sense_y best)).
Qed.

Lemma getSenseCoord_selects_witness :
  getSenseCoord (fun _ => "1.5") (SetAssociations particle_a [] [1; 2] [3]) "x"
  = Done "1.5".
Proof.
  apply (proj2 (getSenseCoord_selects (fun _ => "1.5")
                  (SetAssociations particle_a [] [1; 2] [3])) "x").
  discriminate.
Defined.

(** X4: [SetAssociations] replaces the three association members and
    nothing else: id, pose and weight stay, what was stored before is
    gone, and the two accessors then render exactly what was passed. *)
Theorem SetAssociations_stores (format_float : R -> string) (particle : Particle)
    (associations associations0 : list Z) (sense_x sense_y sense_x0 sense_y0 : list R) :
  let p' := SetAssociations particle associations sense_x sense_y in
  p_id p' = p_id particle /\ pose p' = pose particle /\ p_weight p' = p_weight particle
  /\ SetAssociations (SetAssociations particle associations0 sense_x0 sense_y0)
       associations sense_x sense_y = p'
  /\ getAssociations p' = Done (String.concat " " (map format_int associations))
  /\ getSenseCoord format_float p' "X" = Done (String.concat " " (map format_float sense_x))
  /\ getSenseCoord format_float p' "Y" = Done (String.concat " " (map format_float sense_y)).
Proof.
  cbv zeta. repeat split.
  - apply (stream_copy_trimmed format_int associations).
  - apply (stream_copy_trimmed format_float sense_x).
  - apply (stream_copy_trimmed format_float sense_y).
Qed.

(** ** Initialization *)

Section InitFacts.
Context {RS : RandomSource} {NO : NormalObject}.
Variables (x y theta : R) (std : R * R * R).

Lemma init_step_pushes ps loc i :
  exists p, (init_step x y theta std ps loc i).1 = ps ++ [p] /\ fresh_particle x y theta std i p.
Proof.
  unfold init_step, normal_object_draw.
  destruct (normal_next (il_dist_x loc) (il_gen loc)) as [[zx dx] g1].
  destruct (normal_next (il_dist_y loc) g1) as [[zy dy] g2].
  destruct (normal_next (il_dist_theta loc) g2) as [[zt dt] g3].
  eexists. split; [reflexivity |]. repeat split. exists zx, zy, zt. reflexivity.
Qed.

Lemma init_loop_pushes (n : nat) :
  forall i ps loc,
    exists new,
      (init_loop x y theta std n i ps loc).1 = ps ++ new
      /\ length new = n
      /\ forall j p, new !! j = Some p -> fresh_particle x y theta std (i + Z.of_nat j) p.
Proof.
  induction n as [| n IH]; intros i ps loc; cbn [init_loop].
  - exists []. rewrite app_nil_r. split; [reflexivity | split; [reflexivity |]].
    intros j p Hj. discriminate.
  - destruct (init_step_pushes ps loc i) as (p0 & Hstep & Hp0).
    destruct (IH (i + 1)%Z (init_step x y theta std ps loc i).1
                (init_step x y theta std ps loc i).2) as (new & Hrun & Hlen & Hnew).
    exists (p0 :: new). rewrite Hrun, Hstep, <- app_assoc. split; [reflexivity |].
    split; [cbn; now rewrite Hlen |].
    intros [| j'] p Hj.
    + injection Hj as <-. now rewrite Z.add_0_r.
    + replace (i + Z.of_nat (S j'))%Z with (i + 1 + Z.of_nat j')%Z by lia.
      now apply Hnew.
Qed.
End InitFacts.

(** X5: [init] sets [num_particles] to 100, sets the flag, leaves
    [max_weight] alone and pushes 100 particles behind those the filter
    already holds; the pushed particle number [j] has id [j], weight 1, no
    association metadata and, on each axis, the estimate plus a multiple
    of that axis' deviation (so exactly the estimate when the deviation
    is 0). *)
Theorem init_appends {RS : RandomSource} {NO : NormalObject}
    (x y theta : R) (std : R * R * R) (pf : ParticleFilter) :
  num_particles (init x y theta std pf) = 100%Z
  /\ is_initialized (init x y theta std pf) = true
  /\ max_weight (init x y theta std pf) = max_weight pf
  /\ exists new,
       particles (init x y theta std pf) = particles pf ++ new
       /\ length new = 100%nat
       /\ (forall j p, new !! j = Some p -> fresh_particle x y theta std (Z.of_nat j) p)
       /\ (std = (0, 0, 0) -> Forall (fun p => pose p = (x, y, theta)) new).
Proof.
  split; [reflexivity | split; [reflexivity | split; [reflexivity |]]].
  destruct (init_loop_pushes x y theta std (Z.to_nat 100) 0 (particles pf)
              (mkInitLocals default_seeded normal_fresh normal_fresh normal_fresh))
    as (new & Hrun & Hlen & Hnew).
  exists new. split; [exact Hrun | split; [exact Hlen | split]].
  - intros j p Hj. apply (Hnew j p Hj).
  - intros ->. apply Forall_lookup. intros j p Hj.
    destruct (Hnew j p Hj) as (_ & _ & _ & _ & _ & zx & zy & zt & Hpose).
    rewrite Hpose. cbn [fst snd]. f_equal; [f_equal |]; ring.
Qed.

Lemma init_appends_witness :
  Forall (fun p => pose p = (1, 2, 3))
    (particles (init (RS := lcg_source) 1 2 3 (0, 0, 0) filter_before_init)).
Proof.
  destruct (init_appends (RS := lcg_source) 1 2 3 (0, 0, 0) filter_before_init)
    as (_ & _ & _ & new & Hps & _ & _ & Hpose).
  rewrite Hps. apply Hpose. reflexivity.
Defined.

(** X6: [init] makes [num_particles] equal to the number of particles
    exactly when the filter held no particle before: on a filter without
    particles it leaves exactly 100, and [prediction] can then run; a
    second [init] leaves 200 particles under a [num_particles] of 100. *)
Theorem init_size_consistent {RS : RandomSource} {NO : NormalObject}
    (x y theta : R) (std : R * R * R) (pf : ParticleFilter) :
  length (particles (init x y theta std pf)) = (length (particles pf) + 100)%nat
  /\ (size_consistent (init x y theta std pf) <-> particles pf = [])
  /\ (particles pf = [] ->
      forall delta_t std_pos velocity yaw_rate,
      exists pf',
        prediction delta_t std_pos velocity yaw_rate (init x y theta std pf) = Done pf'
        /\ length (particles pf') = 100%nat)
  /\ length (particles (init x y theta std (init x y theta std pf)))
     = (length (particles pf) + 200)%nat.
Proof.
  assert (Hlen : forall q, length (particles (init x y theta std q))
                           = (length (particles q) + 100)%nat).
  { intros q. unfold init. cbn [particles].
    destruct (init_loop_pushes x y theta std (Z.to_nat 100) 0 (particles q)
                (mkInitLocals default_seeded normal_fresh normal_fresh normal_fresh))
      as (new & -> & Hnew & _).
    rewrite length_app, Hnew. reflexivity. }
  split; [apply Hlen |]. split; [| split].
  - unfold size_consistent. rewrite Hlen. cbn [init num_particles]. split.
    + intros H. destruct (particles pf); [reflexivity | cbn in H; lia].
    + intros ->. reflexivity.
  - intros Hnil delta_t std_pos velocity yaw_rate.
    destruct (prediction_spec delta_t std_pos velocity yaw_rate (init x y theta std pf))
      as (ps' & Hrun & Hl & _).
    { rewrite Hlen, Hnil. cbn. lia. }
    eexists. split; [exact Hrun |]. cbn [particles set_particles].
    rewrite Hl, Hlen, Hnil. reflexivity.
  - rewrite !Hlen. lia.
Qed.

Lemma init_size_consistent_witness :
  exists pf',
    prediction (RS := lcg_source) 1 (1, 1, 1) 10 0
      (init (RS := lcg_source) 1 2 3 (1, 1, 1) filter_before_init) = Done pf'
    /\ length (particles pf') = 100%nat.
Proof.
  apply (proj1 (proj2 (proj2 (init_size_consistent (RS := lcg_source) 1 2 3 (1, 1, 1)
                                filter_before_init)))).
  reflexivity.
Defined.

(** ** What the data association does find *)

Lemma double_to_int_bounds (r : R) :
  0 <= r -> IZR (double_to_int r) <= r < IZR (double_to_int r) + 1.
Proof.
  intros Hr. unfold double_to_int.
  destruct (Rle_dec 0 r) as [_ | Hn]; [| contradiction].
  destruct (base_Int_part r) as [H1 H2]. lra.
Qed.

Lemma euclidean_dist_nonneg observation lm : 0 <= euclidean_dist observation lm.
Proof. unfold euclidean_dist. apply sqrt_pos. Qed.

(** The loop either keeps the index it was entered with, and then no
    landmark it visited is closer than [min_dist]; or it returns a
    landmark it visited that is closer than [min_dist], and then every
    landmark it visited is at least as far as the integer part of that
    landmark's distance. *)
Lemma dataAssociation_loop_result observation lms :
  forall i c m,
    let r := dataAssociation_loop observation lms i c m in
    (r = c /\ Forall (fun lm => IZR m <= euclidean_dist observation lm) lms)
    \/ (exists k lm_r,
          lms !! k = Some lm_r /\ r = (i + Z.of_nat k)%Z
          /\ euclidean_dist observation lm_r < IZR m
          /\ Forall (fun lm => IZR (double_to_int (euclidean_dist observation lm_r))
                               <= euclidean_dist observation lm) lms).
Proof.
  induction lms as [| lm rest IH]; intros i c m; cbn zeta.
  - left. split; [reflexivity | constructor].
  - cbn [dataAssociation_loop].
    pose proof (double_to_int_bounds _ (euclidean_dist_nonneg observation lm)) as Hfloor.
    destruct (Rlt_dec (euclidean_dist observation lm) (IZR m)) as [Hlt | Hge].
    + right.
      destruct (IH (i + 1)%Z i (double_to_int (euclidean_dist observation lm)))
        as [[Hr Hall] | (k & lm_r & Hk & Hr & Hd & Hall)].
      * exists 0%nat, lm. split; [reflexivity |]. split; [lia |]. split; [exact Hlt |].
        constructor; [lra | exact Hall].
      * exists (S k), lm_r. split; [exact Hk |]. split; [lia |]. split; [lra |].
        constructor; [| exact Hall].
        pose proof (double_to_int_bounds _ (euclidean_dist_nonneg observation lm_r)). lra.
    + destruct (IH (i + 1)%Z c m) as [[Hr Hall] | (k & lm_r & Hk & Hr & Hd & Hall)].
      * left. split; [exact Hr |]. constructor; [lra | exact Hall].
      * right. exists (S k), lm_r. split; [exact Hk |]. split; [lia |].
        split; [exact Hd |]. constructor; [| exact Hall].
        pose proof (double_to_int_bounds _ (euclidean_dist_nonneg observation lm_r)). lra.
Qed.

(** X7: when some landmark is closer than 999999 to the observation,
    [dataAssociation] returns a valid index, and the landmark there is
    nearest up to the truncation of [min_dist]: its distance exceeds the
    distance of any landmark by less than 1. *)
Theorem dataAssociation_nearest_within_one
    (observation : LandmarkObs) (map_landmarks : Map) :
  (exists lm, lm ∈ landmark_list map_landmarks
              /\ euclidean_dist observation lm < 999999) ->
  exists lm_r,
    (0 <= dataAssociation observation map_landmarks)%Z
    /\ landmark_list map_landmarks !! Z.to_nat (dataAssociation observation map_landmarks)
       = Some lm_r
    /\ forall lm, lm ∈ landmark_list map_landmarks ->
         euclidean_dist observation lm_r < euclidean_dist observation lm + 1.
Proof.
  intros (lm0 & Hin0 & Hd0). unfold dataAssociation.
  destruct (dataAssociation_loop_result observation (landmark_list map_landmarks)
              0%Z 0%Z 999999%Z) as [[_ Hall] | (k & lm_r & Hk & Hr & _ & Hall)].
  - rewrite Forall_forall in Hall. specialize (Hall lm0 Hin0). lra.
  - exists lm_r. rewrite Hr. split; [lia |].
    split; [now replace (Z.to_nat (0 + Z.of_nat k)) with k by lia |].
    intros lm Hin. rewrite Forall_forall in Hall. specialize (Hall lm Hin).
    pose proof (double_to_int_bounds _ (euclidean_dist_nonneg observation lm_r)). lra.
Qed.

Lemma dataAssociation_nearest_within_one_witness :
  exists lm_r,
    (0 <= dataAssociation obs_origin (mkMap [lm_half; lm_origin]))%Z
    /\ [lm_half; lm_origin]
         !! Z.to_nat (dataAssociation obs_origin (mkMap [lm_half; lm_origin]))
       = Some lm_r
    /\ forall lm, lm ∈ [lm_half; lm_origin] ->
         euclidean_dist obs_origin lm_r < euclidean_dist obs_origin lm + 1.
Proof.
  apply (dataAssociation_nearest_within_one obs_origin (mkMap [lm_half; lm_origin])).
  exists lm_origin. split; [cbn; apply list_elem_of_further, list_elem_of_here |].
  rewrite dist_origin_origin. lra.
Defined.

(** X8: a landmark at distance 999999 or more is never associated by
    comparison: when every landmark is that far, [dataAssociation]
    returns index 0 whichever landmark is nearest. *)
Theorem dataAssociation_beyond_initial_min
    (observation : LandmarkObs) (map_landmarks : Map) :
  Forall (fun lm => 999999 <= euclidean_dist observation lm)
    (landmark_list map_landmarks) ->
  dataAssociation observation map_landmarks = 0%Z.
Proof.
  intros Hfar. unfold dataAssociation.
  destruct (dataAssociation_loop_result observation (landmark_list map_landmarks)
              0%Z 0%Z 999999%Z) as [[Hr _] | (k & lm_r & Hk & _ & Hd & _)].
  - exact Hr.
  - rewrite Forall_lookup in Hfar. specialize (Hfar k lm_r Hk). cbn in Hfar. lra.
Qed.

Lemma dataAssociation_beyond_initial_min_witness :
  dataAssociation obs_origin (mkMap [lm_far; lm_less_far]) = 0%Z.
Proof.
  apply (dataAssociation_beyond_initial_min obs_origin (mkMap [lm_far; lm_less_far])).
  cbn [landmark_list].
  assert (H1 : euclidean_dist obs_origin lm_far = 2000000)
    by (unfold euclidean_dist; cbn; apply sqrt_of_square; lra).
  assert (H2 : euclidean_dist obs_origin lm_less_far = 1000000)
    by (unfold euclidean_dist; cbn; apply sqrt_of_square; lra).
  repeat constructor; rewrite ?H1, ?H2; lra.
Defined.

(** ** More on prediction *)

(** X9: when [num_particles] exceeds the number of particles,
    [prediction] reads [particles[i]] out of range. *)
Theorem prediction_out_of_range {RS : RandomSource}
    (delta_t : R) (std_pos : R * R * R) (velocity yaw_rate : R) (pf : ParticleFilter) :
  (Z.of_nat (length (particles pf)) < num_particles pf)%Z ->
  prediction delta_t std_pos velocity yaw_rate pf = Fault.
Proof.
  intros Hlt. unfold prediction. change 0%Z with (Z.of_nat 0).
  rewrite prediction_loop_out_of_range by lia. reflexivity.
Qed.

Lemma prediction_out_of_range_witness :
  prediction (RS := lcg_source) 1 (1, 1, 1) 10 0 (mkFilter 2 true 1 [particle_at 0 0 0])
  = Fault.
Proof.
  apply (prediction_out_of_range (RS := lcg_source) 1 (1, 1, 1) 10 0
           (mkFilter 2 true 1 [particle_at 0 0 0])).
  cbn. lia.
Defined.





(** X11: the path of the motion model: with yaw rate 0 the pose moves by
    the distance |velocity * delta_t|; with a yaw rate other than 0 it
    stays on the circle of radius |velocity / yaw_rate| around the point
    (x - (v/w) sin theta, y + (v/w) cos theta). *)
Theorem motion_model_path (delta_t velocity yaw_rate x y theta : R) :
  let m := motion_model delta_t velocity yaw_rate x y theta in
  (yaw_rate = 0 ->
     (m.1.1 - x) ^ 2 + (m.1.2 - y) ^ 2 = (velocity * delta_t) ^ 2)
  /\ (yaw_rate <> 0 ->
      let cx := x - velocity / yaw_rate * sin theta in
      let cy := y + velocity / yaw_rate * cos theta in
      (x - cx) ^ 2 + (y - cy) ^ 2 = (velocity / yaw_rate) ^ 2
      /\ (m.1.1 - cx) ^ 2 + (m.1.2 - cy) ^ 2 = (velocity / yaw_rate) ^ 2).
Proof.
  cbv zeta. split.
  - intros ->. rewrite motion_model_straight. cbn [fst snd].
    pose proof (sin2_cos2 theta) as H. unfold Rsqr in H.
    replace ((x + velocity * cos theta * delta_t - x) ^ 2
             + (y + velocity * sin theta * delta_t - y) ^ 2)
      with ((velocity * delta_t) ^ 2 * (sin theta * sin theta + cos theta * cos theta))
      by ring.
    rewrite H. ring.
  - intros Hw. rewrite motion_model_arc by exact Hw. cbn [fst snd].
    set (r := velocity / yaw_rate). set (theta' := theta + yaw_rate * delta_t).
    pose proof (sin2_cos2 theta) as H. unfold Rsqr in H.
    pose proof (sin2_cos2 theta') as H'. unfold Rsqr in H'.
    split.
    + replace ((x - (x - r * sin theta)) ^ 2 + (y - (y + r * cos theta)) ^ 2)
        with (r ^ 2 * (sin theta * sin theta + cos theta * cos theta)) by ring.
      rewrite H. ring.
    + replace ((x + r * (sin theta' - sin theta) - (x - r * sin theta)) ^ 2
               + (y + r * (cos theta - cos theta') - (y + r * cos theta)) ^ 2)
        with (r ^ 2 * (sin theta' * sin theta' + cos theta' * cos theta')) by ring.
      rewrite H'. ring.
Qed.

Lemma motion_model_path_witness :
  let m := motion_model 1 10 0 0 0 0 in
  (m.1.1 - 0) ^ 2 + (m.1.2 - 0) ^ 2 = (10 * 1) ^ 2.
Proof.
  apply (proj1 (motion_model_path 1 10 0 0 0 0)). reflexivity.
Defined.




(** ** More on the weight update *)

Section WeightMore.
Variables (std_landmark : R * R) (map_landmarks : Map).

(** One observation either cannot be associated, or multiplies the
    running weight by a density that does not depend on it. *)
Lemma weight_step_cases particle observation :
  (forall w, weight_step std_landmark map_landmarks particle w observation = Fault)
  \/ (exists d, forall w,
        weight_step std_landmark map_landmarks particle w observation = Done (w * d)).
Proof.
  unfold weight_step, at_index.
  destruct (_ <? 0)%Z; [now left |].
  destruct (landmark_list map_landmarks !! _) as [lm |]; [| now left].
  right. eexists. intros w. reflexivity.
Qed.

Lemma weight_step_same_pose p p' w observation :
  pose p' = pose p ->
  weight_step std_landmark map_landmarks p' w observation
  = weight_step std_landmark map_landmarks p w observation.
Proof.
  unfold pose. intros [= Hx Hy Ht]. unfold weight_step. now rewrite Hx, Hy, Ht.
Qed.

Lemma observations_loop_same_pose p p' observations :
  pose p' = pose p ->
  forall w,
    observations_loop std_landmark map_landmarks p' w observations
    = observations_loop std_landmark map_landmarks p w observations.
Proof.
  intros Hpose. induction observations as [| o rest IH]; intros w; [reflexivity |].
  cbn [observations_loop]. rewrite (weight_step_same_pose p p' w o Hpose).
  destruct (weight_step _ _ p w o); cbn [mbind outcome_bind]; auto.
Qed.

Lemma set_weight_same_but_weight p p' w :
  same_but_weight p p' -> set_weight p' w = set_weight p w.
Proof.
  unfold same_but_weight, pose. intros (Hid & [= Hx Hy Ht] & Ha & Hsx & Hsy).
  unfold set_weight. now rewrite Hid, Hx, Hy, Ht, Ha, Hsx, Hsy.
Qed.

Lemma particles_loop_same_poses observations ps ps' :
  Forall2 same_but_weight ps ps' ->
  forall max_w,
    particles_loop std_landmark observations map_landmarks ps' max_w
    = particles_loop std_landmark observations map_landmarks ps max_w.
Proof.
  induction 1 as [| p p' ps ps' Hp _ IH]; intros max_w; [reflexivity |].
  cbn [particles_loop].
  rewrite (observations_loop_same_pose p p' observations (proj1 (proj2 Hp))).
  destruct (observations_loop _ _ p 1 observations) as [w | |];
    cbn [mbind outcome_bind]; try reflexivity.
  rewrite IH. now rewrite (set_weight_same_but_weight p p' w Hp).
Qed.

Lemma particles_loop_keeps_rest observations ps :
  forall max_w ps' max_w',
    particles_loop std_landmark observations map_landmarks ps max_w = Done (ps', max_w') ->
    Forall2 same_but_weight ps ps'.
Proof.
  induction ps as [| p rest IH]; intros max_w ps' max_w' Hrun; cbn [particles_loop] in Hrun.
  - injection Hrun as <- _. constructor.
  - destruct (observations_loop _ _ p 1 observations) as [w | |];
      cbn [mbind outcome_bind] in Hrun; try discriminate.
    destruct (particles_loop _ _ _ rest _) as [[ps1 m1] | |] eqn:Hrest;
      cbn [mbind outcome_bind fst snd] in Hrun; try discriminate.
    injection Hrun as <- _. constructor; [| exact (IH _ _ _ Hrest)].
    repeat split.
Qed.

Lemma observations_loop_permutation particle observations observations' :
  observations ≡ₚ observations' ->
  forall w,
    observations_loop std_landmark map_landmarks particle w observations
    = observations_loop std_landmark map_landmarks particle w observations'.
Proof.
  induction 1 as [| o l l' _ IH | o1 o2 l | l1 l2 l3 _ IH1 _ IH2]; intros w.
  - reflexivity.
  - cbn [observations_loop].
    destruct (weight_step _ _ particle w o); cbn [mbind outcome_bind]; auto.
  - cbn [observations_loop].
    destruct (weight_step_cases particle o1) as [H1 | [d1 H1]];
      destruct (weight_step_cases particle o2) as [H2 | [d2 H2]];
      rewrite ?H1, ?H2; cbn [mbind outcome_bind]; rewrite ?H1, ?H2;
      cbn [mbind outcome_bind]; try reflexivity.
    now replace (w * d2 * d1) with (w * d1 * d2) by ring.
  - now rewrite IH1.
Qed.

Lemma particles_loop_permutation observations observations' ps :
  observations ≡ₚ observations' ->
  forall max_w,
    particles_loop std_landmark observations map_landmarks ps max_w
    = particles_loop std_landmark observations' map_landmarks ps max_w.
Proof.
  intros Hperm. induction ps as [| p rest IH]; intros max_w; [reflexivity |].
  cbn [particles_loop].
  rewrite (observations_loop_permutation p observations observations' Hperm).
  destruct (observations_loop _ _ p 1 observations') as [w | |];
    cbn [mbind outcome_bind]; try reflexivity.
  now rewrite IH.
Qed.

Lemma particles_loop_empty_batch ps :
  forall max_w,
    1 <= max_w ->
    particles_loop std_landmark [] map_landmarks ps max_w
    = Done (map (fun p => set_weight p 1) ps, max_w).
Proof.
  induction ps as [| p rest IH]; intros max_w Hm; [reflexivity |].
  cbn [particles_loop observations_loop mbind outcome_bind].
  destruct (Rgt_dec 1 max_w) as [Hgt | _]; [lra |].
  rewrite IH by exact Hm. reflexivity.
Qed.
End WeightMore.

(** X13: [updateWeights] recomputes the weights from the poses alone: it
    does not depend on [sensor_range], nor on the weights and the
    [max_weight] the filter had before.  So two filters that differ only
    in those give the same result, and running it a second time on its
    own result changes nothing. *)
Theorem updateWeights_from_scratch
    (sensor_range sensor_range' : R) (std_landmark : R * R)
    (observations : list LandmarkObs) (map_landmarks : Map) (pf pf0 : ParticleFilter) :
  (num_particles pf0 = num_particles pf -> is_initialized pf0 = is_initialized pf ->
   Forall2 same_but_weight (particles pf) (particles pf0) ->
   updateWeights sensor_range' std_landmark observations map_landmarks pf0
   = updateWeights sensor_range std_landmark observations map_landmarks pf)
  /\ updateWeights sensor_range std_landmark observations map_landmarks pf
       ≫= updateWeights sensor_range' std_landmark observations map_landmarks
     = updateWeights sensor_range std_landmark observations map_landmarks pf.
Proof.
  assert (Hsame : forall sr sr' q q0,
             num_particles q0 = num_particles q -> is_initialized q0 = is_initialized q ->
             Forall2 same_but_weight (particles q) (particles q0) ->
             updateWeights sr' std_landmark observations map_landmarks q0
             = updateWeights sr std_landmark observations map_landmarks q).
  { intros sr sr' q q0 HN Hflag Hps. unfold updateWeights.
    rewrite (particles_loop_same_poses std_landmark map_landmarks observations _ _ Hps).
    destruct (particles_loop _ _ _ (particles q) 0) as [st | |];
      cbn [mbind outcome_bind]; try reflexivity.
    unfold set_max_weight, set_particles. cbn. now rewrite HN, Hflag. }
  split; [apply Hsame |].
  destruct (updateWeights sensor_range std_landmark observations map_landmarks pf)
    as [pf1 | |] eqn:Hrun; cbn [mbind outcome_bind]; try reflexivity.
  rewrite <- Hrun. unfold updateWeights in Hrun.
  destruct (particles_loop _ _ _ (particles pf) 0) as [[ps1 m1] | |] eqn:Hloop;
    cbn [mbind outcome_bind fst snd] in Hrun; try discriminate.
  injection Hrun as <-.
  apply Hsame; try reflexivity. cbn [particles set_particles set_max_weight].
  exact (particles_loop_keeps_rest _ _ _ _ _ _ _ Hloop).
Qed.

Lemma updateWeights_from_scratch_witness :
  updateWeights 10 (1, 1) [obs_origin] (mkMap [lm_half; lm_origin]) zero_weight_filter
  = updateWeights 50 (1, 1) [obs_origin] (mkMap [lm_half; lm_origin]) filter_of_two.
Proof.
  apply (proj1 (updateWeights_from_scratch 50 10 (1, 1) [obs_origin]
                  (mkMap [lm_half; lm_origin]) filter_of_two zero_weight_filter));
    try reflexivity.
  repeat constructor.
Defined.

(** X14: on an empty batch of observations [updateWeights] returns
    normally whatever the map, also an empty one: every weight becomes 1,
    and [max_weight] becomes 1, or 0 when there is no particle. *)
Theorem updateWeights_empty_batch
    (sensor_range : R) (std_landmark : R * R) (map_landmarks : Map) (pf : ParticleFilter) :
  updateWeights sensor_range std_landmark [] map_landmarks pf
  = Done (set_max_weight
            (set_particles pf (map (fun p => set_weight p 1) (particles pf)))
            (match particles pf with [] => 0 | _ => 1 end)).
Proof.
  unfold updateWeights. destruct (particles pf) as [| p rest]; [reflexivity |].
  cbn [particles_loop observations_loop mbind outcome_bind].
  destruct (Rgt_dec 1 0) as [_ | Hn]; [| exfalso; apply Hn; lra].
  rewrite particles_loop_empty_batch by lra. reflexivity.
Qed.

(** X15: with an empty landmark collection, at least one observation and
    at least one particle, [updateWeights] reads [landmark_list[0]] out of
    range. *)
Theorem updateWeights_empty_map_faults
    (sensor_range : R) (std_landmark : R * R) (observations : list LandmarkObs)
    (map_landmarks : Map) (pf : ParticleFilter) :
  landmark_list map_landmarks = [] -> observations <> [] -> particles pf <> [] ->
  updateWeights sensor_range std_landmark observations map_landmarks pf = Fault.
Proof.
  intros Hmap Hobs Hps. unfold updateWeights.
  destruct (particles pf) as [| p rest]; [contradiction |].
  destruct observations as [| o obs]; [contradiction |].
  cbn [particles_loop observations_loop]. unfold weight_step, dataAssociation.
  rewrite Hmap. reflexivity.
Qed.

Lemma updateWeights_empty_map_faults_witness :
  updateWeights 50 (1, 1) [obs_origin] (mkMap []) (filter_of_one 0 0 0) = Fault.
Proof.
  apply (updateWeights_empty_map_faults 50 (1, 1) [obs_origin] (mkMap [])
           (filter_of_one 0 0 0)); [reflexivity | discriminate | discriminate].
Defined.

Lemma product_positive (ds : list R) : Forall (fun d => 0 < d) ds -> 0 < product ds.
Proof.
  induction 1 as [| d ds Hd _ IH]; cbn; [lra |]. now apply Rmult_lt_0_compat.
Qed.

Lemma reweighted_positive std_landmark observations map_landmarks p p' :
  0 < std_landmark.1 -> 0 < std_landmark.2 ->
  reweighted std_landmark observations map_landmarks p p' -> 0 < p_weight p'.
Proof.
  intros Hx Hy (ds & Hds & ->). cbn [set_weight p_weight].
  apply product_positive.
  induction Hds as [| o d os ds Hd _ IH]; constructor; [| exact IH].
  destruct Hd as (lm & _ & ->). now apply normPdf2d_pos.
Qed.

(** X16: with positive measurement deviations every weight
    [updateWeights] computes is positive (in exact arithmetic: a product
    of Gaussian densities), and so is [max_weight] on a non-empty particle
    set: the wheel of [resample] then has a positive weight to stop at. *)
Theorem updateWeights_weights_positive
    (sensor_range : R) (std_landmark : R * R) (observations : list LandmarkObs)
    (map_landmarks : Map) (pf : ParticleFilter) :
  associable map_landmarks observations ->
  0 < std_landmark.1 -> 0 < std_landmark.2 ->
  exists pf',
    updateWeights sensor_range std_landmark observations map_landmarks pf = Done pf'
    /\ Forall (fun p' => 0 < p_weight p') (particles pf')
    /\ (particles pf <> [] -> 0 < max_weight pf').
Proof.
  intros Hassoc Hx Hy.
  destruct (updateWeights_spec sensor_range std_landmark observations map_landmarks pf
              Hassoc) as (ps' & max_w' & Hrun & Hall & Hle & Hbound & Hmax).
  eexists. split; [exact Hrun |]. cbn [particles max_weight set_particles set_max_weight].
  assert (Hpos : Forall (fun p' => 0 < p_weight p') ps').
  { clear -Hall Hx Hy. induction Hall as [| p p' ps ps' Hp _ IH]; constructor;
      [exact (reweighted_positive _ _ _ _ _ Hx Hy Hp) | exact IH]. }
  split; [exact Hpos |]. intros Hne.
  destruct Hall as [| p p' ps ps' _ _]; [contradiction |].
  pose proof (Forall_inv Hpos) as H1. pose proof (Forall_inv Hbound) as H2.
  cbn in H1, H2. lra.
Qed.

Lemma updateWeights_weights_positive_witness :
  exists pf',
    updateWeights 50 (1, 1) [obs_origin] (mkMap [lm_half; lm_origin]) zero_weight_filter
    = Done pf'
    /\ Forall (fun p' => 0 < p_weight p') (particles pf')
    /\ (particles zero_weight_filter <> [] -> 0 < max_weight pf').
Proof.
  apply (updateWeights_weights_positive 50 (1, 1) [obs_origin]
           (mkMap [lm_half; lm_origin]) zero_weight_filter).
  - left. discriminate.
  - cbn. lra.
  - cbn. lra.
Defined.

(** X17: the order of the observations in the batch does not matter to
    [updateWeights] (in exact arithmetic): a batch and a permutation of it
    give the same weights, the same [max_weight], and fault alike. *)
Theorem updateWeights_observation_order
    (sensor_range : R) (std_landmark : R * R)
    (observations observations' : list LandmarkObs)
    (map_landmarks : Map) (pf : ParticleFilter) :
  observations ≡ₚ observations' ->
  updateWeights sensor_range std_landmark observations map_landmarks pf
  = updateWeights sensor_range std_landmark observations' map_landmarks pf.
Proof.
  intros Hperm. unfold updateWeights.
  now rewrite (particles_loop_permutation std_landmark map_landmarks
                 observations observations' (particles pf) Hperm).
Qed.

Lemma updateWeights_observation_order_witness :
  updateWeights 50 (1, 1) [obs_origin; mkLandmarkObs 0 1 1] (mkMap [lm_half; lm_origin])
    filter_of_two
  = updateWeights 50 (1, 1) [mkLandmarkObs 0 1 1; obs_origin] (mkMap [lm_half; lm_origin])
      filter_of_two.
Proof.
  apply (updateWeights_observation_order 50 (1, 1) [obs_origin; mkLandmarkObs 0 1 1]
           [mkLandmarkObs 0 1 1; obs_origin] (mkMap [lm_half; lm_origin]) filter_of_two).
  apply perm_swap.
Defined.

(** ** More on resampling *)

Lemma resample_zero_weight_filter {RS : RandomSource} (fuel : nat) :
  resample (S fuel) zero_weight_filter
  = Done (set_particles zero_weight_filter [zero_a; zero_a]).
Proof.
  unfold resample.
  pose proof (discrete_distribution_zero (num_particles zero_weight_filter)
                default_seeded) as Hidx.
  destruct (discrete_distribution 0 (num_particles zero_weight_filter) default_seeded)
    as [index gen']. cbn [fst] in Hidx. subst index.
  cbn [zero_weight_filter num_particles particles max_weight].
  change (Z.to_nat 2) with 2%nat.
  rewrite (resample_loop_stalls fuel [zero_a; zero_b] 2 0 zero_a 2) by reflexivity.
  reflexivity.
Qed.

Lemma resample_fuel_mono {RS : RandomSource} (fuel fuel' : nat) pf pf' :
  resample fuel pf = Done pf' -> (fuel <= fuel')%nat -> resample fuel' pf = Done pf'.
Proof.
  unfold resample.
  destruct (discrete_distribution 0 (num_particles pf) default_seeded) as [index gen'].
  intros Hrun Hle.
  destruct (resample_loop fuel _ _ _ _ _ _ _ _) as [r | |] eqn:Hloop;
    cbn [mbind outcome_bind] in Hrun; try discriminate.
  now rewrite (resample_loop_fuel_mono _ _ _ _ fuel fuel' _ _ _ _ _ Hloop Hle).
Qed.

(** X18: whenever [resample] returns, the new set has exactly
    [num_particles] elements, whatever the size of the old set, each one
    an unchanged copy (weight included) of a particle of the old set;
    [num_particles], the flag and [max_weight] are as before. *)
Theorem resample_result_shape {RS : RandomSource}
    (fuel : nat) (pf pf' : ParticleFilter) :
  resample fuel pf = Done pf' ->
  length (particles pf') = Z.to_nat (num_particles pf)
  /\ Forall (fun p' => p' ∈ particles pf) (particles pf')
  /\ num_particles pf' = num_particles pf
  /\ is_initialized pf' = is_initialized pf
  /\ max_weight pf' = max_weight pf.
Proof.
  intros Hrun.
  destruct (resample_size_and_copies fuel pf pf' Hrun) as (Hlen & Hall & HN & Hmax).
  repeat split; try assumption.
  unfold resample in Hrun.
  destruct (discrete_distribution 0 (num_particles pf) default_seeded) as [index gen'].
  destruct (resample_loop _ _ _ _ _ _ _ _ _) as [r | |];
    cbn [mbind outcome_bind] in Hrun; try discriminate.
  now injection Hrun as <-.
Qed.

Lemma resample_result_shape_witness :
  length (particles (set_particles zero_weight_filter [zero_a; zero_a]))
  = Z.to_nat (num_particles zero_weight_filter)
  /\ Forall (fun p' => p' ∈ particles zero_weight_filter)
       (particles (set_particles zero_weight_filter [zero_a; zero_a]))
  /\ num_particles (set_particles zero_weight_filter [zero_a; zero_a])
     = num_particles zero_weight_filter
  /\ is_initialized (set_particles zero_weight_filter [zero_a; zero_a])
     = is_initialized zero_weight_filter
  /\ max_weight (set_particles zero_weight_filter [zero_a; zero_a])
     = max_weight zero_weight_filter.
Proof.
  apply (resample_result_shape (RS := lcg_source) 1 zero_weight_filter).
  apply resample_zero_weight_filter.
Defined.

(** *** The wheel under a [max_weight] that some weight reaches

    When no weight is negative, an accumulator that is not above the
    weight of the particle [pstar] stops the wheel at [pstar] at the
    latest: within one turn.  The draws keep the accumulator there when
    [max_weight] is not above that weight. *)

Section WheelOneTurn.
Context {RS : RandomSource}.
Variables (ps : list Particle) (star : nat) (pstar : Particle) (max_w : R).
Hypothesis weights_nonneg : Forall (fun p => 0 <= p_weight p) ps.
Hypothesis star_lookup : ps !! star = Some pstar.
Hypothesis max_w_range : 0 <= max_w <= p_weight pstar.

Lemma wheel_one_turn (d : nat) :
  forall (b : R) (i fuel : nat),
    (i < length ps)%nat ->
    (wheel_distance (length ps) star i <= d)%nat ->
    b <= p_weight pstar ->
    (d < fuel)%nat ->
    exists b' i' p',
      wheel fuel ps (Z.of_nat (length ps)) b (Z.of_nat i) = Done (b', Z.of_nat i')
      /\ ps !! i' = Some p' /\ b' <= p_weight p'.
Proof.
  pose proof (lookup_lt_Some _ _ _ star_lookup) as Hstar.
  assert (Hstop : forall b i fuel p,
             ps !! i = Some p -> b <= p_weight p ->
             exists b' i' p',
               wheel (S fuel) ps (Z.of_nat (length ps)) b (Z.of_nat i)
               = Done (b', Z.of_nat i')
               /\ ps !! i' = Some p' /\ b' <= p_weight p').
  { intros b i fuel p Hp Hle. exists b, i, p.
    split; [exact (wheel_stop ps fuel b i p Hp Hle) | split; assumption]. }
  induction d as [| d IH]; intros b i fuel Hi Hd Hb Hfuel;
    (destruct fuel as [| fuel]; [lia |]);
    destruct (lookup_lt_is_Some_2 ps i Hi) as [p Hp];
    pose proof (Forall_lookup_1 _ _ _ _ weights_nonneg Hp) as Hw; cbn in Hw;
    destruct (Rle_lt_dec b (p_weight p)) as [Hle | Hgt].
  - exact (Hstop b i fuel p Hp Hle).
  - assert (i = star) as -> by (apply (wheel_distance_zero (length ps)); [exact Hi | lia]).
    assert (p = pstar) as -> by congruence. lra.
  - exact (Hstop b i fuel p Hp Hle).
  - assert (Hne : i <> star) by (intros ->; assert (p = pstar) as -> by congruence; lra).
    pose proof (wheel_distance_next (length ps) star i Hstar Hi Hne) as Hdist.
    destruct (IH (b - p_weight p) (next_index (length ps) i) fuel)
      as (b' & i' & p' & Hrun & Hres); [now apply next_index_lt | lia | lra | lia |].
    exists b', i', p'. split; [| exact Hres].
    now rewrite (wheel_advance ps fuel b i p Hp Hgt).
Qed.

(** One draw: the accumulator was not above the weight at the current
    index, and the draw adds at most the weight of [pstar]. *)
Lemma wheel_after_draw (b beta : R) (i fuel : nat) (p : Particle) :
  ps !! i = Some p -> b <= p_weight p ->
  0 <= beta <= p_weight pstar ->
  (length ps < fuel)%nat ->
  exists b' i' p',
    wheel fuel ps (Z.of_nat (length ps)) (b + beta) (Z.of_nat i) = Done (b', Z.of_nat i')
    /\ ps !! i' = Some p' /\ b' <= p_weight p'.
Proof.
  intros Hp Hb Hbeta Hfuel.
  pose proof (lookup_lt_Some _ _ _ star_lookup) as Hstar.
  pose proof (lookup_lt_Some _ _ _ Hp) as Hi.
  destruct fuel as [| fuel]; [lia |].
  destruct (Rle_lt_dec (b + beta) (p_weight p)) as [Hle | Hgt].
  - exists (b + beta), i, p.
    split; [exact (wheel_stop ps fuel (b + beta) i p Hp Hle) | split; assumption].
  - rewrite (wheel_advance ps fuel (b + beta) i p Hp Hgt).
    apply (wheel_one_turn (length ps - 1)); [now apply next_index_lt | | lra | lia].
    pose proof (wheel_distance_lt (length ps) star (next_index (length ps) i) Hstar
                  (next_index_lt _ _ Hi)). lia.
Qed.

Lemma resample_loop_one_turn (fuel : nat) (n : nat) :
  (length ps < fuel)%nat ->
  forall b (i : nat) p gen acc,
    ps !! i = Some p -> b <= p_weight p ->
    exists r,
      resample_loop fuel ps (Z.of_nat (length ps)) max_w n b (Z.of_nat i) gen acc
      = Done r.
Proof.
  intros Hfuel. induction n as [| n IH]; intros b i p gen acc Hp Hb.
  - exists acc. reflexivity.
  - cbn [resample_loop].
    destruct (uniform_real_distribution_range 0 max_w gen (proj1 max_w_range))
      as [Hbeta _].
    destruct (uniform_real_distribution 0 max_w gen) as [beta gen'].
    cbn [fst] in Hbeta.
    assert (Hbeta' : 0 <= beta <= p_weight pstar) by lra.
    destruct (wheel_after_draw b beta i fuel p Hp Hb Hbeta' Hfuel)
      as (b' & i' & p' & Hrun & Hp' & Hb').
    rewrite Hrun. cbn [mbind outcome_bind fst snd]. rewrite at_index_of_nat, Hp'.
    cbn [mbind outcome_bind]. exact (IH b' i' p' gen' (acc ++ [p']) Hp' Hb').
Qed.
End WheelOneTurn.

(** With no negative weight and a cached [max_weight] that is not negative
    and not above the weight of some particle, [resample] returns on a
    fuel of one turn of the wheel per draw. *)
Lemma resample_one_turn {RS : RandomSource} (pf : ParticleFilter) :
  size_consistent pf ->
  Forall (fun p => 0 <= p_weight p) (particles pf) ->
  0 <= max_weight pf ->
  (exists p, p ∈ particles pf /\ max_weight pf <= p_weight p) ->
  exists pf',
    resample (S (length (particles pf))) pf = Done pf'
    /\ length (particles pf') = length (particles pf)
    /\ Forall (fun p' => p' ∈ particles pf) (particles pf')
    /\ num_particles pf' = num_particles pf
    /\ max_weight pf' = max_weight pf.
Proof.
  intros HN Hnonneg Hmax0 (pstar & Hin & Hstar_max). unfold size_consistent in HN.
  apply list_elem_of_lookup in Hin as [star Hstar].
  destruct (particles pf) as [| p0 rest] eqn:Hps; [discriminate |].
  pose proof (discrete_distribution_zero (num_particles pf) default_seeded) as Hidx.
  destruct (discrete_distribution 0 (num_particles pf) default_seeded)
    as [index gen'] eqn:Hdraw. cbn [fst] in Hidx. subst index.
  destruct (resample_loop_one_turn (p0 :: rest) star pstar (max_weight pf) Hnonneg Hstar
              (conj Hmax0 Hstar_max)
              (S (length (p0 :: rest))) (length (p0 :: rest)) (Nat.lt_succ_diag_r _)
              0 0%nat p0 gen' [] eq_refl (Forall_inv Hnonneg)) as (r & Hrun).
  assert (Hres : resample (S (length (particles pf))) pf = Done (set_particles pf r)).
  { unfold resample. cbv zeta. rewrite Hdraw. cbv beta iota.
    rewrite HN, Nat2Z.id, Hps.
    change (Z.of_nat 0) with 0%Z in Hrun. now rewrite Hrun. }
  rewrite <- Hps in *. exists (set_particles pf r). split; [exact Hres |].
  destruct (resample_size_and_copies _ pf _ Hres) as (Hlen & Hall & HN' & Hmax').
  split; [| split; [exact Hall | split; [exact HN' | exact Hmax']]].
  rewrite Hlen, HN. apply Nat2Z.id.
Qed.

(** X19: on a particle set whose size is [num_particles], with no
    negative weight and a cached [max_weight] that is not negative and not
    above the weight of some particle (so in particular the largest
    weight, as [updateWeights] leaves it; all weights 0 under a
    [max_weight] of 0 included), [resample] returns, and the new set has
    the size of the old one and is made of copies of its particles; in
    exact arithmetic every draw stops the wheel within one turn. *)
Theorem resample_terminates {RS : RandomSource} (pf : ParticleFilter) :
  size_consistent pf ->
  Forall (fun p => 0 <= p_weight p) (particles pf) ->
  0 <= max_weight pf ->
  (exists p, p ∈ particles pf /\ max_weight pf <= p_weight p) ->
  exists pf',
    (forall fuel, (length (particles pf) < fuel)%nat -> resample fuel pf = Done pf')
    /\ length (particles pf') = length (particles pf)
    /\ Forall (fun p' => p' ∈ particles pf) (particles pf').
Proof.
  intros HN Hnonneg Hmax0 Hreached.
  destruct (resample_one_turn pf HN Hnonneg Hmax0 Hreached)
    as (pf' & Hrun & Hlen & Hall & _).
  exists pf'. split; [| split; assumption].
  intros fuel Hfuel. apply (resample_fuel_mono (S (length (particles pf)))); [exact Hrun | lia].
Qed.

Lemma resample_terminates_witness :
  exists pf',
    (forall fuel, (2 < fuel)%nat ->
                  resample (RS := lcg_source) fuel filter_of_two = Done pf')
    /\ length (particles pf') = 2%nat
    /\ Forall (fun p' => p' ∈ [particle_a; particle_b]) (particles pf').
Proof.
  apply (resample_terminates (RS := lcg_source) filter_of_two).
  - reflexivity.
  - repeat constructor; cbn; lra.
  - cbn. lra.
  - exists particle_a. split; [apply list_elem_of_here | cbn; lra].
Defined.

(** ** One time step *)

(** After a weight update on a non-empty set with positive deviations the
    cached maximum is attained, bounds every weight, and no weight is
    negative. *)
Lemma updateWeights_fresh_maximum
    sensor_range std_landmark observations map_landmarks pf :
  associable map_landmarks observations ->
  0 < std_landmark.1 -> 0 < std_landmark.2 ->
  particles pf <> [] ->
  exists ps' max_w',
    updateWeights sensor_range std_landmark observations map_landmarks pf
    = Done (set_max_weight (set_particles pf ps') max_w')
    /\ Forall2 (reweighted std_landmark observations map_landmarks) (particles pf) ps'
    /\ Forall (fun p' => 0 <= p_weight p' <= max_w') ps'
    /\ exists p', p' ∈ ps' /\ p_weight p' = max_w'.
Proof.
  intros Hassoc Hx Hy Hne.
  destruct (updateWeights_spec sensor_range std_landmark observations map_landmarks pf
              Hassoc) as (ps' & max_w' & Hrun & Hall & Hle & Hbound & Hmax).
  exists ps', max_w'. split; [exact Hrun | split; [exact Hall |]].
  assert (Hnonneg : Forall (fun p' => 0 <= p_weight p') ps').
  { clear -Hall Hx Hy. induction Hall as [| p p' ps ps' Hp _ IH]; constructor;
      [exact (reweighted_nonneg _ _ _ _ _ Hx Hy Hp) | exact IH]. }
  split.
  - rewrite Forall_forall in Hnonneg, Hbound. apply Forall_forall.
    intros p' Hin. split; [now apply Hnonneg | now apply Hbound].
  - destruct Hmax as [-> | Hex]; [| exact Hex].
    destruct Hall as [| p p' ps ps' _ _]; [contradiction |].
    exists p'. split; [apply list_elem_of_here |].
    apply Rle_antisym; [exact (Forall_inv Hbound) | exact (Forall_inv Hnonneg)].
Qed.

(** X20: one time step, [prediction], then [updateWeights], then
    [resample], on a non-empty particle set whose size is [num_particles],
    with positive measurement deviations and a map the observations can be
    associated with: the three calls return, without fault (in exact
    arithmetic [resample] within one turn of the wheel per draw); the size
    of the set, [num_particles] and the flag are kept; every particle of
    the new set has a weight that is not negative and not above
    [max_weight], and the id of a particle of the old set. *)
Theorem filter_step_returns {RS : RandomSource}
    (delta_t : R) (std_pos : R * R * R) (velocity yaw_rate : R)
    (sensor_range : R) (std_landmark : R * R)
    (observations : list LandmarkObs) (map_landmarks : Map) (pf : ParticleFilter) :
  size_consistent pf -> particles pf <> [] ->
  associable map_landmarks observations ->
  0 < std_landmark.1 -> 0 < std_landmark.2 ->
  exists pf',
    (prediction delta_t std_pos velocity yaw_rate pf
       ≫= updateWeights sensor_range std_landmark observations map_landmarks)
      ≫= resample (S (length (particles pf)))
    = Done pf'
    /\ size_consistent pf'
    /\ num_particles pf' = num_particles pf
    /\ is_initialized pf' = is_initialized pf
    /\ Forall (fun p' => 0 <= p_weight p' <= max_weight pf'
                         /\ exists p, p ∈ particles pf /\ p_id p' = p_id p)
         (particles pf').
Proof.
  intros HN Hne Hassoc Hx Hy. unfold size_consistent in HN.
  destruct (prediction_spec delta_t std_pos velocity yaw_rate pf)
    as (ps1 & Hrun1 & Hlen1 & Hspec1); [lia |].
  destruct (updateWeights_fresh_maximum sensor_range std_landmark observations
              map_landmarks (set_particles pf ps1) Hassoc Hx Hy)
    as (ps2 & m & Hrun2 & Hall2 & Hrange & Hattained).
  { cbn [particles set_particles]. intros ->. destruct (particles pf); [contradiction |].
    discriminate. }
  cbn [particles set_particles] in Hrun2, Hall2.
  set (pf2 := set_max_weight (set_particles (set_particles pf ps1) ps2) m) in *.
  pose proof (Forall2_length _ _ _ Hall2) as Hlen2.
  assert (Hids : Forall (fun p' => exists p, p ∈ particles pf /\ p_id p' = p_id p) ps2).
  { apply Forall_lookup. intros j p2 Hj.
    destruct (Forall2_lookup_r _ _ _ _ _ Hall2 Hj) as (p1 & Hp1 & ds & _ & ->).
    destruct (lookup_lt_is_Some_2 (particles pf) j) as [p Hp].
    { rewrite <- Hlen1. exact (lookup_lt_Some _ _ _ Hp1). }
    exists p. split; [apply list_elem_of_lookup; eauto |].
    rewrite (Hspec1 j p Hp) in Hp1. injection Hp1 as <-.
    destruct (decide _); reflexivity. }
  destruct (resample_one_turn pf2) as (pf' & Hrun3 & Hlen3 & Hall3 & HN3 & Hmax3).
  { unfold size_consistent, pf2. cbn [num_particles particles set_particles set_max_weight].
    rewrite <- Hlen2, Hlen1. exact HN. }
  { unfold pf2. cbn [particles set_particles set_max_weight].
    eapply Forall_impl; [exact Hrange |]. intros p' Hp'. cbn in Hp'. lra. }
  { unfold pf2. cbn [max_weight set_particles set_max_weight].
    destruct Hattained as (p' & Hin & <-).
    rewrite Forall_forall in Hrange. exact (proj1 (Hrange p' Hin)). }
  { unfold pf2. cbn [particles max_weight set_particles set_max_weight].
    destruct Hattained as (p' & Hin & Hp'). exists p'. split; [exact Hin | lra]. }
  assert (Hflag : is_initialized pf' = is_initialized pf).
  { clear -Hrun3. unfold resample in Hrun3.
    destruct (discrete_distribution 0 (num_particles pf2) default_seeded) as [index gen'].
    destruct (resample_loop _ _ _ _ _ _ _ _ _) as [r | |];
      cbn [mbind outcome_bind] in Hrun3; try discriminate.
    now injection Hrun3 as <-. }
  unfold pf2 in Hrun3, Hlen3, HN3, Hmax3, Hall3.
  cbn [num_particles particles max_weight set_particles set_max_weight]
    in Hrun3, Hlen3, HN3, Hmax3, Hall3.
  exists pf'. rewrite Hrun1. cbn [mbind outcome_bind]. rewrite Hrun2.
  cbn [mbind outcome_bind]. rewrite <- Hlen1, Hlen2. split; [exact Hrun3 |].
  split; [| split; [exact HN3 | split; [exact Hflag |]]].
  - unfold size_consistent. rewrite HN3, Hlen3, <- Hlen2, Hlen1. exact HN.
  - rewrite Hmax3. eapply Forall_impl; [exact Hall3 |]. intros p' Hin. cbn in Hin.
    rewrite Forall_forall in Hrange, Hids.
    split; [now apply Hrange | now apply Hids].
Qed.

Lemma filter_step_returns_witness :
  exists pf',
    (prediction (RS := lcg_source) 1 (1, 1, 1) 10 0 filter_of_two
       ≫= updateWeights 50 (1, 1) [obs_origin] (mkMap [lm_half; lm_origin]))
      ≫= resample (RS := lcg_source) 3
    = Done pf'
    /\ size_consistent pf'
    /\ num_particles pf' = 2%Z
    /\ is_initialized pf' = true
    /\ Forall (fun p' => 0 <= p_weight p' <= max_weight pf'
                         /\ exists p, p ∈ [particle_a; particle_b] /\ p_id p' = p_id p)
         (particles pf').
Proof.
  apply (filter_step_returns (RS := lcg_source) 1 (1, 1, 1) 10 0 50 (1, 1) [obs_origin]
           (mkMap [lm_half; lm_origin]) filter_of_two).
  - reflexivity.
  - discriminate.
  - left. discriminate.
  - cbn. lra.
  - cbn. lra.
Defined.

(** ** What the stages leave alone *)

(** X21: [prediction] loops over the first [num_particles] particles
    only: a particle stored at an index from [num_particles] on (as after
    a second [init]) is returned exactly as it was. *)
Theorem prediction_leaves_tail {RS : RandomSource}
    (delta_t : R) (std_pos : R * R * R) (velocity yaw_rate : R) (pf : ParticleFilter) :
  (num_particles pf <= Z.of_nat (length (particles pf)))%Z ->
  exists pf',
    prediction delta_t std_pos velocity yaw_rate pf = Done pf'
    /\ forall j p, (num_particles pf <= Z.of_nat j)%Z ->
         particles pf !! j = Some p -> particles pf' !! j = Some p.
Proof.
  intros Hn.
  destruct (prediction_spec delta_t std_pos velocity yaw_rate pf Hn)
    as (ps' & Hrun & _ & Hspec).
  eexists. split; [exact Hrun |]. cbn [particles set_particles].
  intros j p Hj Hp. rewrite (Hspec j p Hp).
  destruct (decide _); [lia | reflexivity].
Qed.

Lemma prediction_leaves_tail_witness :
  exists pf',
    prediction (RS := lcg_source) 1 (1, 1, 1) 10 0
      (mkFilter 1 true 1 [particle_a; particle_b]) = Done pf'
    /\ forall j p, (1 <= Z.of_nat j)%Z ->
         [particle_a; particle_b] !! j = Some p -> particles pf' !! j = Some p.
Proof.
  apply (prediction_leaves_tail (RS := lcg_source) 1 (1, 1, 1) 10 0
           (mkFilter 1 true 1 [particle_a; particle_b])).
  cbn. lia.
Defined.

(** X22: whenever [updateWeights] returns, it has changed nothing but the
    weights and [max_weight]: the particles are the same in number and
    order, each with its id, pose and association metadata (which
    [updateWeights] never writes), and [num_particles] and the flag are as
    before. *)
Theorem updateWeights_changes_only_weights
    (sensor_range : R) (std_landmark : R * R) (observations : list LandmarkObs)
    (map_landmarks : Map) (pf pf' : ParticleFilter) :
  updateWeights sensor_range std_landmark observations map_landmarks pf = Done pf' ->
  Forall2 same_but_weight (particles pf) (particles pf')
  /\ num_particles pf' = num_particles pf
  /\ is_initialized pf' = is_initialized pf.
Proof.
  unfold updateWeights. intros Hrun.
  destruct (particles_loop _ _ _ (particles pf) 0) as [[ps1 m1] | |] eqn:Hloop;
    cbn [mbind outcome_bind fst snd] in Hrun; try discriminate.
  injection Hrun as <-. cbn [particles num_particles is_initialized
                                set_particles set_max_weight].
  split; [| split; reflexivity].
  exact (particles_loop_keeps_rest _ _ _ _ _ _ _ Hloop).
Qed.

Lemma updateWeights_changes_only_weights_witness :
  Forall2 same_but_weight [zero_a; zero_b] [set_weight zero_a 1; set_weight zero_b 1]
  /\ num_particles (mkFilter 2 true 1 [set_weight zero_a 1; set_weight zero_b 1]) = 2%Z
  /\ is_initialized (mkFilter 2 true 1 [set_weight zero_a 1; set_weight zero_b 1]) = true.
Proof.
  apply (updateWeights_changes_only_weights 50 (1, 1) [] (mkMap [])
           zero_weight_filter
           (mkFilter 2 true 1 [set_weight zero_a 1; set_weight zero_b 1])).
  unfold updateWeights.
  cbn [zero_weight_filter particles particles_loop observations_loop mbind outcome_bind].
  destruct (Rgt_dec 1 0) as [_ | Hn]; [| exfalso; apply Hn; lra].
  destruct (Rgt_dec 1 1) as [Hgt | _]; [lra | reflexivity].
Defined.
